(** * gogo: the pooled request logger, the component generator and hook stages

    A shallow embedding of [logger.go] (package gogo) and of
    [cmd/commands/component.go] (package commands), with the properties the
    specification states about them.

    Go strings are byte strings and are modelled by [string]; pointers to
    [AppLogger] objects are indices into a heap of objects that only grows
    (Go never frees a reachable object); every stateful function passes the
    program state explicitly and reports a panic as a value. *)

From Stdlib Require Import String Ascii List ZArith Lia Bool.
From stdpp Require Import base option list strings.
Import ListNotations.
Open Scope string_scope.
Open Scope list_scope.

(* ================================================================= *)
(** * Part I: definitions *)
(* ================================================================= *)

(** ** Go's [strings] package, as far as the sources use it *)

(** [strings.HasPrefix(s, prefix)] *)
Fixpoint strings_HasPrefix (s prefix : string) : bool :=
  match prefix with
  | EmptyString => true
  | String p prefix' =>
      match s with
      | EmptyString => false
      | String c s' => Ascii.eqb c p && strings_HasPrefix s' prefix'
      end
  end.

(** [strings.HasSuffix(s, suffix)]:
    [len(s) >= len(suffix) && s[len(s)-len(suffix):] == suffix] *)
Definition strings_HasSuffix (s suffix : string) : bool :=
  (String.length suffix <=? String.length s)%nat
  && String.eqb
       (substring (String.length s - String.length suffix) (String.length suffix) s)
       suffix.

(** [strings.TrimSuffix(s, suffix)]: [s] without the trailing [suffix], or
    [s] itself when it does not end with it. *)
Definition strings_TrimSuffix (s suffix : string) : string :=
  if strings_HasSuffix s suffix
  then substring 0 (String.length s - String.length suffix) s
  else s.

(** [strings.Contains(s, substr)] *)
Fixpoint strings_Contains (s substr : string) : bool :=
  strings_HasPrefix s substr
  || match s with
     | EmptyString => false
     | String _ rest => strings_Contains rest substr
     end.

(** ** Go's [path] package: [Clean] and [Join]

    [path.Clean] reads the path from index [r] and writes into a buffer of
    length [w]; here the unread part of the path is the list [rest] and the
    buffer is the list [out], so that [w = length out] and
    [out.index(i) = nth i out]. *)

Definition is_slash (c : ascii) : bool := Ascii.eqb c "/".
Definition is_dot (c : ascii) : bool := Ascii.eqb c ".".

(** [r+k == n || path[r+k] == '/'] for the remaining input after [r+k]. *)
Definition end_or_slash (rest : list ascii) : bool :=
  match rest with
  | [] => true
  | c :: _ => is_slash c
  end.

(** [for out.w > dotdot && out.index(out.w) != '/' { out.w-- }] *)
Fixpoint backtrack (buf : list ascii) (w dotdot : nat) : nat :=
  match w with
  | O => O
  | S w' =>
      if (dotdot <? w)%nat && negb (is_slash (nth w buf "/"%char))
      then backtrack buf w' dotdot
      else w
  end.

(** [for ; r < n && path[r] != '/'; r++ { out.append(path[r]) }]:
    the copied element and the input left after it. *)
Fixpoint copy_element (rest : list ascii) : list ascii * list ascii :=
  match rest with
  | [] => ([], [])
  | c :: rest' =>
      if is_slash c then ([], rest)
      else let '(el, rest'') := copy_element rest' in (c :: el, rest'')
  end.

(** The main loop [for r < n { switch ... }] of [path.Clean]. Every
    iteration consumes at least one byte, so [length path] iterations
    suffice; [fuel] is that bound. *)
Fixpoint clean_loop (fuel : nat) (rooted : bool)
    (rest out : list ascii) (dotdot : nat) : list ascii :=
  match fuel with
  | O => out
  | S fuel' =>
      match rest with
      | [] => out
      | c :: rest1 =>
          if is_slash c then
            (* empty path element *)
            clean_loop fuel' rooted rest1 out dotdot
          else if is_dot c && end_or_slash rest1 then
            (* . element *)
            clean_loop fuel' rooted rest1 out dotdot
          else if is_dot c && is_dot (hd "/"%char rest1)
                  && end_or_slash (tl rest1) then
            (* .. element: remove to last / *)
            let rest2 := tl rest1 in
            if (dotdot <? length out)%nat then
              (* can backtrack *)
              let w := backtrack out (length out - 1) dotdot in
              clean_loop fuel' rooted rest2 (firstn w out) dotdot
            else if negb rooted then
              (* cannot backtrack, but not rooted, so append .. element *)
              let out1 := if (0 <? length out)%nat then out ++ ["/"%char] else out in
              let out2 := out1 ++ ["."%char; "."%char] in
              clean_loop fuel' rooted rest2 out2 (length out2)
            else
              clean_loop fuel' rooted rest2 out dotdot
          else
            (* real path element: add slash if needed, copy element *)
            let out1 :=
              if (rooted && negb (length out =? 1)%nat)
                 || (negb rooted && negb (length out =? 0)%nat)
              then out ++ ["/"%char] else out in
            let '(el, rest2) := copy_element rest in
            clean_loop fuel' rooted rest2 (out1 ++ el) dotdot
      end
  end.

(** [path.Clean(path)] *)
Definition path_Clean (path : string) : string :=
  match list_ascii_of_string path with
  | [] => "."
  | c :: rest =>
      let rooted := is_slash c in
      let out :=
        if rooted
        then clean_loop (String.length path) true rest ["/"%char] 1
        else clean_loop (String.length path) false (c :: rest) [] 0 in
      match out with
      | [] => "."
      | _ => string_of_list_ascii out
      end
  end.

(** The buffer [path.Join] builds: the non-empty elements separated by
    slashes (empty elements before the first non-empty one are skipped, later
    ones still contribute a slash, which [Clean] removes). *)
Fixpoint join_buf (buf : string) (elem : list string) : string :=
  match elem with
  | [] => buf
  | e :: elem' =>
      if negb (String.eqb buf "") || negb (String.eqb e "")
      then join_buf ((if negb (String.eqb buf "") then buf +:+ "/" else buf) +:+ e) elem'
      else join_buf buf elem'
  end.

(** [path.Join(elem...)] *)
Definition path_Join (elem : list string) : string :=
  if forallb (String.eqb "") elem then ""
  else path_Clean (join_buf "" elem).

(** ** Package gogo: [logger.go] *)

(** The external package [github.com/dolab/logger], which [logger.go] only
    calls: the state behind a [*logger.Logger], the constructor
    [logger.New(output)] that opens the sink or fails, the method [lg.New()]
    that derives a logger sharing the writer of [lg], and
    [lg.SetTags(tags...)]. *)
Class LoggerLib := {
  logger_Logger : Type;
  logger_error : Type;
  logger_New : string -> logger_Logger + logger_error;
  logger_Logger_New : logger_Logger -> logger_Logger;
  logger_Logger_SetTags : list string -> logger_Logger -> logger_Logger
}.

(** Addresses of [AppLogger] objects, and [*AppLogger] pointers: [None] is
    the nil pointer. *)
Abbreviation loc := nat (only parsing).
Definition ptr := option loc.

(** What an [interface{}] (or a [Logger]) holds at run time: nothing, a
    [*AppLogger] (possibly a nil pointer), or a value of some other dynamic
    type, which implements the interface [Logger] or does not. *)
Inductive value :=
  | vNil
  | vAppLogger (p : ptr)
  | vOther (isLogger : bool) (impl : nat).

#[global] Instance value_eq_dec : EqDecision value.
Proof. solve_decision. Defined.

(** The type assertion [v.(Logger)] with the comma-ok form: [*AppLogger]
    implements [Logger]; a nil interface implements nothing. *)
Definition assert_Logger (v : value) : option value :=
  match v with
  | vNil => None
  | vAppLogger _ => Some v
  | vOther true _ => Some v
  | vOther false _ => None
  end.

(** The type assertion of [v] to a pointer to [AppLogger], comma-ok form. *)
Definition assert_AppLogger (v : value) : option ptr :=
  match v with
  | vAppLogger p => Some p
  | _ => None
  end.

Section Gogo.
Context `{LoggerLib}.

(** [sync.Pool]: the idle values and the [New] closure. The only closure the
    package ever stores is [func() interface{} { return &AppLogger{Logger:
    lg.New()} }], represented by the logger [lg] it captures; [None] is the
    nil func of a zero pool. *)
Record sync_Pool := {
  idle : list value;
  New : option logger_Logger
}.

(** [type AppLogger struct { *logger.Logger; mux sync.RWMutex; pool
    sync.Pool; requestID string }]. The embedded pointer is the state of the
    logger it points to: both places that build an [AppLogger] give it a
    logger of its own, [lg.New()]. Nothing in the package takes the write
    lock of [mux], so the mutex is the number of readers holding it. *)
Record AppLogger := {
  Logger : logger_Logger;
  mux : nat;
  pool : sync_Pool;
  requestID : string
}.

(** The program state: the heap of [AppLogger] objects, and the outputs
    handed to [logger.New] so far, in call order. *)
Record State := {
  heap : list AppLogger;
  opened : list string
}.

Inductive panic :=
  | IndexOutOfRange                 (* output[0] on an empty string *)
  | NilDereference                  (* a field of a nil *AppLogger *)
  | InterfaceConversion             (* lg.(Logger) on a value that is none *)
  | LogPanicf (output : string) (err : logger_error).

(** How a call ends: it returns, it panics, or it ends in the call
    [lg.New(requestID)] of another implementation of [Logger], whose code is
    not part of the package. *)
Inductive outcome (A : Type) :=
  | Return (a : A)
  | Panic (why : panic)
  | Delegated (impl : nat) (id : string).
Arguments Return {A} a.
Arguments Panic {A} why.
Arguments Delegated {A} impl id.

(** Stateful, possibly panicking computations. The state is kept when a
    call panics: deferred calls still run on it. *)
Definition M (A : Type) : Type := State -> outcome A * State.

Definition ret {A} (a : A) : M A := fun s => (Return a, s).

Definition raise {A} (why : panic) : M A := fun s => (Panic why, s).

Definition bind {A B} (m : M A) (k : A -> M B) : M B :=
  fun s =>
    match m s with
    | (Return a, s') => k a s'
    | (Panic why, s') => (Panic why, s')
    | (Delegated impl id, s') => (Delegated impl id, s')
    end.

(** [defer d; body]: [d] runs when [body] is left, by return or by panic. *)
Definition deferred {A} (d : State -> State) (body : M A) : M A :=
  fun s => let '(r, s') := body s in (r, d s').

Definition update (f : State -> State) : M unit := fun s => (Return tt, f s).

Notation "'do' x <- m ; k" := (bind m (fun x => k))
  (at level 10, x name, m at level 100, k at level 200).

(** Reading through a [*AppLogger]. A pointer that is not nil points into
    the heap; an address outside it, which Go cannot produce, is read like
    nil. *)
Definition load (p : ptr) : M AppLogger :=
  fun s =>
    match p with
    | None => (Panic NilDereference, s)
    | Some l =>
        match heap s !! l with
        | Some a => (Return a, s)
        | None => (Panic NilDereference, s)
        end
    end.

(** Writing the object at [l] in place. *)
Definition modify (l : loc) (f : AppLogger -> AppLogger) (s : State) : State :=
  {| heap := alter f l (heap s); opened := opened s |}.

(** [&AppLogger{...}]: a new object at the next free address. *)
Definition alloc (a : AppLogger) : M loc :=
  fun s => (Return (length (heap s)),
            {| heap := heap s ++ [a]; opened := opened s |}).

Definition set_mux (n : nat) (a : AppLogger) : AppLogger :=
  {| Logger := Logger a; mux := n; pool := pool a; requestID := requestID a |}.
Definition set_pool (p : sync_Pool) (a : AppLogger) : AppLogger :=
  {| Logger := Logger a; mux := mux a; pool := p; requestID := requestID a |}.
Definition set_requestID (id : string) (a : AppLogger) : AppLogger :=
  {| Logger := Logger a; mux := mux a; pool := pool a; requestID := id |}.
Definition set_Logger (lg : logger_Logger) (a : AppLogger) : AppLogger :=
  {| Logger := lg; mux := mux a; pool := pool a; requestID := requestID a |}.

(** [alog.mux.RLock()] and [alog.mux.RUnlock()]; no writer ever holds the
    mutex, so [RLock] never blocks, and every [RUnlock] follows the [RLock]
    of the same call. *)
Definition RLock (l : loc) : State -> State :=
  modify l (fun a => set_mux (S (mux a)) a).
Definition RUnlock (l : loc) : State -> State :=
  modify l (fun a => set_mux (pred (mux a)) a).

(** [&AppLogger{Logger: lg.New()}] *)
Definition fresh_AppLogger (lg : logger_Logger) : AppLogger :=
  {| Logger := logger_Logger_New lg;
     mux := 0;
     pool := {| idle := []; New := None |};
     requestID := "" |}.

(** [p.Put(x)] on the pool of the object at [l]: a nil [x] is dropped. *)
Definition Pool_Put (l : loc) (x : value) : State -> State :=
  match x with
  | vNil => fun s => s
  | _ => modify l (fun a =>
           set_pool {| idle := x :: idle (pool a); New := New (pool a) |} a)
  end.

(** [p.New()], or nil when [p.New] is nil. *)
Definition Pool_New (p : sync_Pool) : M value :=
  match New p with
  | Some lg => do n <- alloc (fresh_AppLogger lg) ; ret (vAppLogger (Some n))
  | None => ret vNil
  end.

(** [p.Get()] on the pool of the object at [l]. "Get selects an arbitrary
    item from the Pool, removes it from the Pool, and returns it to the
    caller. Get may choose to ignore the pool and treat it as empty": [pick]
    is that choice, [Some i] for the idle item at position [i]. When no item
    is taken, the result is that of [p.New]. *)
Definition Pool_Get (l : loc) (pick : option nat) : M value :=
  do a <- load (Some l) ;
  match pick with
  | Some i =>
      match idle (pool a) !! i with
      | Some x =>
          do _ <- update (modify l (fun a =>
                    set_pool {| idle := delete i (idle (pool a));
                                New := New (pool a) |} a)) ;
          ret x
      | None => Pool_New (pool a)
      end
  | None => Pool_New (pool a)
  end.

(** The [switch] of [NewAppLogger]: the output handed to [logger.New]. *)
Definition sink_of (output filename : string) : M string :=
  if existsb (String.eqb output) ["stdout"; "stderr"; "null"; "nil"]
  then (* skip *) ret output
  else match output with
       | EmptyString => raise IndexOutOfRange
       | String c _ =>
           if negb (is_slash c)
           then ret (path_Join [output; filename +:+ ".log"])
           else ret output
       end.

(** The call [logger.New(output)], recorded in [opened]. *)
Definition call_logger_New (output : string) : M (logger_Logger + logger_error) :=
  fun s => (Return (logger_New output),
            {| heap := heap s; opened := opened s ++ [output] |}).

(** [func NewAppLogger(output, filename string) *AppLogger] *)
Definition NewAppLogger (output filename : string) : M ptr :=
  do output <- sink_of output filename ;
  do r <- call_logger_New output ;
  match r with
  | inr err => raise (LogPanicf output err)
  | inl lg =>
      do alog <- alloc {| Logger := logger_Logger_New lg;
                          mux := 0;
                          pool := {| idle := []; New := None |};
                          requestID := "" |} ;
      (* overwrite pool.New *)
      do _ <- update (modify alog (fun a =>
                set_pool {| idle := idle (pool a); New := Some lg |} a)) ;
      ret (Some alog)
  end.

(** The slow path of [New] once [pool.Get] has answered [lg]: the type
    switch of lines 82-89. *)
Definition New_stamp (lg : value) (id : string) : M value :=
  match assert_AppLogger lg with
  | Some nlog =>
      match nlog with
      | None => raise NilDereference
      | Some n =>
          do _ <- update (modify n (set_requestID id)) ;
          do _ <- update (modify n (fun a =>
                    set_Logger (logger_Logger_SetTags [id] (Logger a)) a)) ;
          ret (vAppLogger nlog)
      end
  | None =>
      match assert_Logger lg with
      | Some (vOther _ impl) => fun s => (Delegated impl id, s)
      | _ => raise InterfaceConversion
      end
  end.

(** The state the two writes of the slow path leave, on the handle [n]. *)
Definition stamped (n : loc) (id : string) (s : State) : State :=
  modify n (fun a => set_Logger (logger_Logger_SetTags [id] (Logger a)) a)
    (modify n (set_requestID id) s).

(** [func (alog *AppLogger) New(requestID string) Logger]; the argument is
    called [id] here, [requestID] being the field. *)
Definition AppLogger_New (alog : ptr) (id : string) (pick : option nat) : M value :=
  match alog with
  | None => raise NilDereference
  | Some l =>
      (* shortcut *)
      do _ <- update (RLock l) ;
      do a <- load alog ;
      if String.eqb (requestID a) id then
        do _ <- update (RUnlock l) ;
        ret (vAppLogger alog)
      else
        deferred (RUnlock l)
          (do lg <- Pool_Get l pick ;
           New_stamp lg id)
  end.

(** [func (alog *AppLogger) RequestID() string] *)
Definition AppLogger_RequestID (alog : ptr) : M string :=
  do a <- load alog ; ret (requestID a).

(** [func (alog *AppLogger) Reuse(lg Logger)] *)
Definition AppLogger_Reuse (alog : ptr) (lg : value) : M unit :=
  match alog with
  | None => raise NilDereference
  | Some l => update (Pool_Put l lg)
  end.

(** *** [New] step by step, for calls that run concurrently

    One call of [alog.New(requestID)] as a sequence of atomic steps; the
    program counter says which statement comes next and carries the locals
    [lg] and [nlog]. [pool.Get] is one step: [sync.Pool] is safe for
    concurrent use, and the object its [New] closure builds is not visible to
    another goroutine before [Get] returns. *)
Inductive New_pc :=
  | AtRLock                          (* alog.mux.RLock() *)
  | AtCompare                        (* if alog.requestID == requestID *)
  | AtFastRUnlock                    (* alog.mux.RUnlock(); return alog *)
  | AtGet                            (* lg := alog.pool.Get() *)
  | AtStamp (lg : value)             (* nlog, ok := ...; nlog.requestID = requestID *)
  | AtSetTags (n : loc)              (* nlog.SetTags(requestID) *)
  | AtDeferred (r : outcome value)   (* the deferred alog.mux.RUnlock() *)
  | Finished (r : outcome value).

Definition New_step (l : loc) (id : string) (pick : option nat)
    (pc : New_pc) (s : State) : New_pc * State :=
  match pc with
  | AtRLock => (AtCompare, RLock l s)
  | AtCompare =>
      match heap s !! l with
      | Some a =>
          if String.eqb (requestID a) id then (AtFastRUnlock, s) else (AtGet, s)
      | None => (Finished (Panic NilDereference), s)
      end
  | AtFastRUnlock => (Finished (Return (vAppLogger (Some l))), RUnlock l s)
  | AtGet =>
      match Pool_Get l pick s with
      | (Return lg, s') => (AtStamp lg, s')
      | (Panic why, s') => (AtDeferred (Panic why), s')
      | (Delegated impl id', s') => (AtDeferred (Delegated impl id'), s')
      end
  | AtStamp lg =>
      match assert_AppLogger lg with
      | Some (Some n) => (AtSetTags n, modify n (set_requestID id) s)
      | Some None => (AtDeferred (Panic NilDereference), s)
      | None =>
          match assert_Logger lg with
          | Some (vOther _ impl) => (AtDeferred (Delegated impl id), s)
          | _ => (AtDeferred (Panic InterfaceConversion), s)
          end
      end
  | AtSetTags n =>
      (AtDeferred (Return (vAppLogger (Some n))),
       modify n (fun a => set_Logger (logger_Logger_SetTags [id] (Logger a)) a) s)
  | AtDeferred r => (Finished r, RUnlock l s)
  | Finished r => (Finished r, s)
  end.

(** A goroutine inside [New]: its argument, the choice its [pool.Get] makes,
    and where it stands. *)
Record goroutine := {
  g_id : string;
  g_pick : option nat;
  g_pc : New_pc
}.

Definition go_New (id : string) (pick : option nat) : goroutine :=
  {| g_id := id; g_pick := pick; g_pc := AtRLock |}.

Definition g_step (l : loc) (g : goroutine) (s : State) : goroutine * State :=
  let '(pc, s') := New_step l (g_id g) (g_pick g) (g_pc g) s in
  ({| g_id := g_id g; g_pick := g_pick g; g_pc := pc |}, s').

(** Two goroutines calling [New] on the logger at [l], interleaved by a
    schedule: [true] lets the first one take its next step, [false] the
    second. *)
Fixpoint run_schedule (l : loc) (sched : list bool)
    (g1 g2 : goroutine) (s : State) : goroutine * goroutine * State :=
  match sched with
  | [] => (g1, g2, s)
  | true :: sched' =>
      let '(g1', s') := g_step l g1 s in run_schedule l sched' g1' g2 s'
  | false :: sched' =>
      let '(g2', s') := g_step l g2 s in run_schedule l sched' g1 g2' s'
  end.

(** *** Sequences of calls on one logger

    A call of [New], with the choice its [pool.Get] makes, or of [Reuse]. *)

Inductive call :=
  | CallNew (id : string) (pick : option nat)
  | CallReuse (lg : value).

Definition do_call (alog : ptr) (c : call) : M value :=
  match c with
  | CallNew id pick => AppLogger_New alog id pick
  | CallReuse lg => do _ <- AppLogger_Reuse alog lg ; ret vNil
  end.

(** *** What a pool may be assumed to hold *)

(** [v] is a [*AppLogger] that is not nil: a pointer to an object of the
    heap. *)
Definition handle_value (s : State) (v : value) : Prop :=
  exists n, v = vAppLogger (Some n) /\ is_Some (heap s !! n).

(** The logger at [l] has its pool as [NewAppLogger] sets it up, with the
    constructor closure, and nothing but handles in the free list. *)
Definition pool_of_handles (s : State) (l : loc) : Prop :=
  exists a, heap s !! l = Some a
    /\ is_Some (New (pool a))
    /\ Forall (handle_value s) (idle (pool a)).

(** Moreover the idle handles are pairwise distinct objects, and the logger
    itself is not among them: no handle was put back twice, and the logger
    was never put into its own pool. *)
Definition pool_of_idle_handles (s : State) (l : loc) : Prop :=
  exists a, heap s !! l = Some a
    /\ is_Some (New (pool a))
    /\ Forall (handle_value s) (idle (pool a))
    /\ NoDup (idle (pool a))
    /\ vAppLogger (Some l) ∉ idle (pool a).

(** A history of calls on the logger [alog], run in order. *)
Fixpoint run_calls (alog : ptr) (calls : list call) (s : State) : State :=
  match calls with
  | [] => s
  | c :: calls' => run_calls alog calls' (snd (do_call alog c s))
  end.

(** Every value the history passes to [Reuse] is, when it is passed, a
    [*AppLogger] that is not nil. *)
Fixpoint reuses_handles (alog : ptr) (calls : list call) (s : State) : Prop :=
  match calls with
  | [] => True
  | c :: calls' =>
      match c with
      | CallReuse lg => handle_value s lg
      | CallNew _ _ => True
      end
      /\ reuses_handles alog calls' (snd (do_call alog c s))
  end.

(** The weaker reading: every value passed to [Reuse] has the dynamic type
    [*AppLogger], nil pointers included. *)
Fixpoint reuses_AppLoggers (calls : list call) : Prop :=
  match calls with
  | [] => True
  | c :: calls' =>
      match c with
      | CallReuse lg => is_Some (assert_AppLogger lg)
      | CallNew _ _ => True
      end
      /\ reuses_AppLoggers calls'
  end.

(** *** Two concurrent calls of [New] *)

(** The steps a call still has to take, at most. *)
Definition steps_left (pc : New_pc) : nat :=
  match pc with
  | AtRLock => 6
  | AtCompare => 5
  | AtGet => 4
  | AtStamp _ => 3
  | AtSetTags _ => 2
  | AtFastRUnlock => 1
  | AtDeferred _ => 1
  | Finished _ => 0
  end.

(** How often [who] is scheduled. *)
Definition turns (who : bool) (sched : list bool) : nat :=
  length (filter (fun b => b = who) sched).

(** The handle a goroutine got from the pool and now has for itself; the
    logger [l], which the shortcut returns, is not such a handle. *)
Definition held (l : loc) (pc : New_pc) : option loc :=
  match pc with
  | AtStamp (vAppLogger (Some n)) => Some n
  | AtSetTags n => Some n
  | AtDeferred (Return (vAppLogger (Some n)))
  | Finished (Return (vAppLogger (Some n))) =>
      if decide (n = l) then None else Some n
  | _ => None
  end.

(** What holds of a goroutine calling [New(id)] on the logger [l], whose
    cached id is [id0], where it stands. *)
Definition pc_ok (s : State) (l : loc) (id0 id : string) (pc : New_pc) : Prop :=
  match pc with
  | AtRLock | AtCompare | AtGet => True
  | AtFastRUnlock => id = id0
  | AtStamp lg =>
      exists n, lg = vAppLogger (Some n) /\ n <> l /\ is_Some (heap s !! n)
  | AtSetTags n =>
      n <> l /\ exists h, heap s !! n = Some h /\ requestID h = id
  | AtDeferred r | Finished r =>
      exists n h, r = Return (vAppLogger (Some n))
        /\ heap s !! n = Some h
        /\ requestID h = id
        /\ (n = l -> id = id0)
  end.

(** The goroutine is where it may be, and the handle it has is not idle. *)
Definition goroutine_ok (s : State) (l : loc) (a : AppLogger) (id0 : string)
    (g : goroutine) : Prop :=
  pc_ok s l id0 (g_id g) (g_pc g)
  /\ forall n, held l (g_pc g) = Some n -> vAppLogger (Some n) ∉ idle (pool a).

(** The invariant of two concurrent calls of [New] on the logger [l]: the
    logger keeps its cached id and its constructor, its idle handles are
    distinct objects other than the logger, and the two goroutines have
    different handles. *)
Definition two_inv (s : State) (l : loc) (id0 : string)
    (g1 g2 : goroutine) : Prop :=
  exists a, heap s !! l = Some a
    /\ requestID a = id0
    /\ is_Some (New (pool a))
    /\ Forall (handle_value s) (idle (pool a))
    /\ NoDup (idle (pool a))
    /\ (vAppLogger (Some l) ∉ idle (pool a))
    /\ goroutine_ok s l a id0 g1
    /\ goroutine_ok s l a id0 g2
    /\ (forall n1 n2, held l (g_pc g1) = Some n1 ->
                      held l (g_pc g2) = Some n2 -> n1 <> n2).

(** The object at [x] is still there in [s'], with its [requestID]. *)
Definition preserved (s s' : State) (x : loc) : Prop :=
  forall h, heap s !! x = Some h ->
    exists h', heap s' !! x = Some h' /\ requestID h' = requestID h.

(** [context.Context] as the chain of key/value pairs, innermost first;
    [ctx.Value(key)] is the innermost value under [key], or nil. The key
    [ctxLoggerKey] is declared in another file of the package. *)
Context {ctxKey : Type} `{EqDecision ctxKey}.
Variable ctxLoggerKey : ctxKey.

Definition Context := list (ctxKey * value).

Fixpoint Context_Value (ctx : Context) (key : ctxKey) : value :=
  match ctx with
  | [] => vNil
  | (k, v) :: parent => if decide (k = key) then v else Context_Value parent key
  end.

(** [func NewContextLogger(ctx context.Context) Logger] *)
Definition NewContextLogger (ctx : Context) : M value :=
  match assert_Logger (Context_Value ctx ctxLoggerKey) with
  | Some alog => ret alog
  | None => do alog <- NewAppLogger "stderr" "" ; ret (vAppLogger alog)
  end.

(** What the specification asks of a logger retrieval [m] from the context
    [ctx], run in the state [s]: the logger attached under [ctxLoggerKey] is
    returned as it is, the state untouched; with none attached the result is
    a new [AppLogger], at an address that was free, whose logger is derived
    from the library's logger for ["stderr"], the one sink opened on the
    way. Either way a value is returned, and it is not nil. *)
Definition retrieves (ctx : Context) (m : M value) (s : State) : Prop :=
  match assert_Logger (Context_Value ctx ctxLoggerKey) with
  | Some lg =>
      m s = (Return lg, s) /\ lg = Context_Value ctx ctxLoggerKey /\ lg <> vNil
  | None =>
      exists (a : AppLogger) (lg : logger_Logger) (s' : State),
        m s = (Return (vAppLogger (Some (length (heap s)))), s')
        /\ heap s' !! length (heap s) = Some a
        /\ logger_New "stderr" = inl lg
        /\ Logger a = logger_Logger_New lg
        /\ opened s' = opened s ++ ["stderr"]
  end.

(** [*http.Request], reduced to its context: [r.Context()] is the context
    of the request, or the empty background context when none was set. *)
Record http_Request := { Request_ctx : option Context }.

Definition Request_Context (r : http_Request) : Context :=
  default [] (Request_ctx r).

(** [func NewRequestLogger(r *http.Request) Logger] *)
Definition NewRequestLogger (r : http_Request) : M value :=
  NewContextLogger (Request_Context r).

End Gogo.

Arguments Return {_ A} a.
Arguments Panic {_ A} why.
Arguments Delegated {_ A} impl id.

(** ** Package commands: [cmd/commands/component.go] *)

(** [strings.Join(elems, sep)] *)
Fixpoint strings_Join (elems : list string) (sep : string) : string :=
  match elems with
  | [] => ""
  | [e] => e
  | e :: elems' => e +:+ sep +:+ strings_Join elems' sep
  end.

(** [strings.Split(s, sep)] for a non-empty separator: the pieces of [s]
    between the occurrences of [sep], read left to right. [cur] is the piece
    being read; [fuel] bounds the bytes left. *)
Fixpoint split_loop (fuel : nat) (s sep cur : string) : list string :=
  match fuel with
  | O => [cur +:+ s]
  | S fuel' =>
      match s with
      | EmptyString => [cur]
      | String c s' =>
          if strings_HasPrefix s sep
          then cur :: split_loop fuel'
                        (substring (String.length sep)
                                   (String.length s - String.length sep) s)
                        sep ""
          else split_loop fuel' s' sep (cur +:+ String c "")
      end
  end.

Definition strings_Split (s sep : string) : list string :=
  split_loop (String.length s) s sep "".

Module commands.

(** [type ComponentType int] with the constants of the [iota] block. *)
Definition ComponentType := Z.

Definition _comType : ComponentType := 0%Z.
Definition ComTypeController : ComponentType := 1%Z.
Definition ComTypeMiddleware : ComponentType := 2%Z.
Definition ComTypeModel : ComponentType := 3%Z.
Definition comType_ : ComponentType := 4%Z.

(** [comDirs], the map from component types to directories; [None] is the
    missing key. *)
Definition comDirs (ct : ComponentType) : option (list string) :=
  if (ct =? ComTypeController)%Z then Some ["app"; "controllers"]
  else if (ct =? ComTypeMiddleware)%Z then Some ["app"; "middlewares"]
  else if (ct =? ComTypeModel)%Z then Some ["app"; "models"]
  else None.

(** [func (ct ComponentType) Valid() bool] *)
Definition ComponentType_Valid (ct : ComponentType) : bool :=
  (_comType <? ct)%Z && (ct <? comType_)%Z.

(** [func (ct ComponentType) Root(pwd string) string] *)
Definition ComponentType_Root (ct : ComponentType) (pwd : string) : string :=
  match comDirs ct with
  | None => pwd
  | Some dirs =>
      let pwd := strings_TrimSuffix pwd "/" in
      let pwd := strings_TrimSuffix pwd "/gogo" in
      path_Clean (path_Join [pwd; "gogo"; path_Join dirs])
  end.

(** [func (ct ComponentType) String() string] *)
Definition ComponentType_String (ct : ComponentType) : string :=
  if (ct =? ComTypeController)%Z then "controller"
  else if (ct =? ComTypeMiddleware)%Z then "middleware"
  else if (ct =? ComTypeModel)%Z then "model"
  else "".

(** [type ComTemplateModel struct { Name string; Args []string }] *)
Record ComTemplateModel := {
  Name : string;
  Args : list string
}.

(** What the generator calls and this file does not define: the operating
    system ([os.Getwd], [os.OpenFile] with [O_CREATE|O_WRONLY]), whose errors
    are values of their own type; the templates of [box]; and
    [named.ToCamelCase], [strings.Title] and [strings.ToLower]. [FS] is the
    state of the file system; an open file is named by its path. *)
Class Platform := {
  os_error : Type;
  os_error_Error : os_error -> string;
  FS : Type;
  os_Getwd : FS -> string + os_error;
  os_OpenFile : string -> FS -> FS + os_error;
  template_Execute :
    string -> string -> ComTemplateModel -> FS -> FS * option os_error;
  named_ToCamelCase : string -> list string;
  strings_Title : string -> string;
  strings_ToLower : string -> string
}.

Section Component.
Context `{Platform}.

(** The errors [newComponent] returns: the two sentinels of the package
    (declared in another file) and whatever the operating system or a
    template reports. *)
Inductive error :=
  | ErrComponentType
  | ErrInvalidRoot
  | ErrExternal (e : os_error).

(** The state the generator works on: the file system and the lines logged
    to [stderr]. *)
Record World := {
  fs : FS;
  stderr : list string
}.

Definition stderr_Error (msg : string) (w : World) : World :=
  {| fs := fs w; stderr := stderr w ++ [msg] |}.

(** [func (_ *_Component) toCamelCase(name string) (capitalName string)] *)
Definition Component_toCamelCase (name : string) : string :=
  let names := named_ToCamelCase name in
  strings_Join
    (map (fun tmpname =>
            strings_Join (map strings_Title (strings_Split tmpname "_")) "")
         names)
    "".

(** [func (_ *_Component) toFilename(name string) (filename string)] *)
Definition Component_toFilename (name : string) : string :=
  let names := named_ToCamelCase name in
  let filenames :=
    map strings_ToLower (filter (fun n => negb (String.eqb n "_")) names) in
  strings_Join filenames "_" +:+ ".go".

(** One "generate" block of [newComponent]: open [file] under [comRoot] and
    run the template [tmpl] into it. [None] is success. *)
Definition generate (comRoot file tmpl : string) (comArgs : ComTemplateModel)
    (w : World) : option error * World :=
  match os_OpenFile (path_Join [comRoot; file]) (fs w) with
  | inr err => (Some (ErrExternal err), stderr_Error (os_error_Error err) w)
  | inl fs1 =>
      match template_Execute tmpl (path_Join [comRoot; file]) comArgs fs1 with
      | (fs2, Some err) =>
          (Some (ErrExternal err),
           stderr_Error (os_error_Error err) {| fs := fs2; stderr := stderr w |})
      | (fs2, None) => (None, {| fs := fs2; stderr := stderr w |})
      end
  end.

(** [func (_ *_Component) newComponent(com ComponentType, name string,
    args ...string) error]; [None] is the nil error. *)
Definition newComponent (com : ComponentType) (name : string)
    (args : list string) (w : World) : option error * World :=
  if negb (ComponentType_Valid com) then (Some ErrComponentType, w)
  else
    match os_Getwd (fs w) with
    | inr err => (Some (ErrExternal err), stderr_Error (os_error_Error err) w)
    | inl root =>
        let comRoot := ComponentType_Root com root in
        if negb (strings_Contains comRoot "/gogo/") then (Some ErrInvalidRoot, w)
        else
          let comName := name in
          let comArgs := {| Name := Component_toCamelCase comName; Args := args |} in
          (* generate xxx.go *)
          match generate comRoot (Component_toFilename comName)
                         ("template_" +:+ ComponentType_String com) comArgs w with
          | (Some err, w1) => (Some err, w1)
          | (None, w1) =>
              (* generate xxx_test.go *)
              generate comRoot (Component_toFilename (comName +:+ "_test"))
                       ("template_" +:+ ComponentType_String com +:+ "_test")
                       comArgs w1
          end
    end.

(** [*cli.Context] of [github.com/golib/cli], reduced to what the actions
    read: the positional arguments, of which [ctx.Args().First()] is the
    first or the empty string, and the values of the string-slice flags. *)
Record cli_Context := {
  ctx_Args : list string;
  ctx_StringSlice : string -> list string
}.

Definition Args_First (ctx : cli_Context) : string := hd "" (ctx_Args ctx).

(** [func (_ *_Component) Action() cli.ActionFunc] *)
Definition Component_Action (ctx : cli_Context) (w : World)
    : option error * World :=
  let name := path_Clean (Args_First ctx) in
  (* controller *)
  match newComponent ComTypeController name
          (ctx_StringSlice ctx "controller-actions") w with
  | (Some err, w1) => (Some err, w1)
  | (None, w1) =>
      (* model *)
      match newComponent ComTypeModel name [] w1 with
      | (Some err, w2) => (Some err, w2)
      | (None, w2) => (None, w2)
      end
  end.

(** [func (_ *_Component) NewController() cli.ActionFunc] *)
Definition Component_NewController (ctx : cli_Context) (w : World)
    : option error * World :=
  let name := path_Clean (Args_First ctx) in
  let actions := ctx_StringSlice ctx "actions" in
  let actions :=
    if (length actions =? 0)%nat
    then ["index"; "create"; "show"; "update"; "destroy"]
    else actions in
  newComponent ComTypeController name actions w.

(** [func (_ *_Component) NewMiddleware() cli.ActionFunc] *)
Definition Component_NewMiddleware (ctx : cli_Context) (w : World)
    : option error * World :=
  let name := path_Clean (Args_First ctx) in
  newComponent ComTypeMiddleware name [] w.

(** [func (_ *_Component) NewModel() cli.ActionFunc] *)
Definition Component_NewModel (ctx : cli_Context) (w : World)
    : option error * World :=
  let name := path_Clean (Args_First ctx) in
  newComponent ComTypeModel name [] w.

End Component.

Arguments ErrComponentType {_}.
Arguments ErrInvalidRoot {_}.
Arguments ErrExternal {_} e.

End commands.

(** ** Hook stages *)

Module hooks.

Section Stage.

(** The response and the request of one exchange, as the hooks of a stage
    see them and may change them. *)
Variable Exchange : Type.

(** Modelled from the spec: the package [pkgs/hooks] and the server's stage
    runner are not among the sources; only the test service builds values
    [hooks.NamedHook{Name, Apply}]. A named hook is [{name, apply:
    (response, request) -> bool}], and it may mutate the response and the
    request. *)
Record NamedHook := {
  Name : string;
  Apply : Exchange -> bool * Exchange
}.

(** Modelled from the spec: the stage runner [runStage(stage, response,
    request) -> continue] is not among the sources. "Executes each Named
    Hook in registration order [...]. If a hook returns false, stop iterating
    immediately and report false to the caller. If all hooks return true (or
    the stage has zero hooks), report true." Besides the answer, the
    definition gives the exchange as the hooks left it and the names of the
    hooks that ran, in the order they ran. *)
Fixpoint runStage (stage : list NamedHook) (x : Exchange)
    : bool * Exchange * list string :=
  match stage with
  | [] => (true, x, [])
  | h :: rest =>
      let '(continue, x1) := Apply h x in
      if continue
      then let '(ok, x2, ran) := runStage rest x1 in (ok, x2, Name h :: ran)
      else (false, x1, [Name h])
  end.

End Stage.

Arguments Name {Exchange} n.
Arguments Apply {Exchange} n x.
Arguments runStage {Exchange} stage x.

End hooks.

(** ** Further notions about the logger *)

(** Every value the history passes to [Reuse] is, when it is passed, a
    handle that is neither the logger [l] itself nor idle in its pool: a
    handle that [New] gave out and that was not put back since. *)
Fixpoint reuses_outstanding `{LoggerLib} (l : loc) (calls : list call)
    (s : State) : Prop :=
  match calls with
  | [] => True
  | c :: calls' =>
      match c with
      | CallReuse lg =>
          exists n, lg = vAppLogger (Some n)
            /\ is_Some (heap s !! n)
            /\ n <> l
            /\ forall a, heap s !! l = Some a -> lg ∉ idle (pool a)
      | CallNew _ _ => True
      end
      /\ reuses_outstanding l calls' (snd (do_call (Some l) c s))
  end.

(** Whether a goroutine inside [New] has the read lock at this point. *)
Definition holds_lock `{LoggerLib} (pc : New_pc) : nat :=
  match pc with
  | AtRLock | Finished _ => 0
  | _ => 1
  end.

(** The steps left on the shortcut. *)
Definition shortcut_left `{LoggerLib} (pc : New_pc) : nat :=
  match pc with
  | AtRLock => 3
  | AtCompare => 2
  | AtFastRUnlock => 1
  | _ => 0
  end.

(** The state [s] with [k] more readers on the mutex of the logger [l]. *)
Definition with_readers `{LoggerLib} (l : loc) (k : nat) (s : State) : State :=
  modify l (fun a => set_mux (mux a + k) a) s.

(** A goroutine calling [New(id)] that is on the shortcut of the logger [l],
    and whether it has the lock. *)
Definition on_shortcut `{LoggerLib} (l : loc) (id : string) (g : goroutine)
    (k : nat) : Prop :=
  g_id g = id
  /\ (g_pc g = AtRLock /\ k = 0
      \/ g_pc g = AtCompare /\ k = 1
      \/ g_pc g = AtFastRUnlock /\ k = 1
      \/ g_pc g = Finished (Return (vAppLogger (Some l))) /\ k = 0).

(** ** A logger library to run the definitions on

    Sinks are their names and open unless the name is that of the read-only
    file [/proc/version]; a logger is its sink and its tags. *)
Definition plain_logger : LoggerLib := {|
  logger_Logger := string * list string;
  logger_error := string;
  logger_New := fun output =>
    if String.eqb output "/proc/version"
    then inr "permission denied"
    else inl (output, []);
  logger_Logger_New := fun lg => (fst lg, []);
  logger_Logger_SetTags := fun tags lg => (fst lg, tags)
|}.

Definition empty_State `{LoggerLib} : State := {| heap := []; opened := [] |}.

(** The state once [NewAppLogger("nil", "")] has run in the empty state:
    the logger is the object at address 0. *)
Definition started : @State plain_logger :=
  Eval vm_compute in (NewAppLogger "nil" "" empty_State).2.

(** The state after [alog := logger.New("di-tseuqer-x")] and
    [logger.Reuse(alog)], as the server's reuse test begins: the handle at
    address 1 is idle in the pool of the logger. *)
Definition served : @State plain_logger :=
  Eval vm_compute in
    run_calls (Some 0)
      [CallNew "di-tseuqer-x" None; CallReuse (vAppLogger (Some 1))] started.

(** The state after [alog := logger.New("")], which is the logger itself by
    the shortcut, and [logger.Reuse(alog)]: every handle acquired went back
    once, and the logger is idle in its own pool. *)
Definition recycled : @State plain_logger :=
  Eval vm_compute in
    run_calls (Some 0) [CallNew "" None; CallReuse (vAppLogger (Some 0))] started.

(** The state after [alog := logger.New("a")] alone: the handle at address 1
    is with its caller, and the pool is empty. *)
Definition acquired : @State plain_logger :=
  Eval vm_compute in (AppLogger_New (Some 0) "a" None started).2.

(** The state after [logger.Reuse(lg)] with a [Logger] of another type than
    [*AppLogger]: that value is idle in the pool of the logger. *)
Definition offered : @State plain_logger :=
  Eval vm_compute in (AppLogger_Reuse (Some 0) (vOther true 7) started).2.

(** Each goroutine in turn, six times. *)
Definition alternating : list bool :=
  [true; false; true; false; true; false; true; false; true; false; true; false].

(** The first goroutine to its end, then the second. *)
Definition one_then_other : list bool :=
  [true; true; true; true; true; true; false; false; false; false; false; false].

(** ** A platform to run the generator on

    The file system is the working directory and the files written so far,
    each with the template that filled it; directories always exist, and
    only the template [template_model_test] fails. Names are left as they
    are. *)
Definition memory_platform : commands.Platform := {|
  commands.os_error := string;
  commands.os_error_Error := fun e => e;
  commands.FS := string * list (string * string);
  commands.os_Getwd := fun fs => inl (fst fs);
  commands.os_OpenFile := fun path fs => inl (fst fs, snd fs ++ [(path, "")]);
  commands.template_Execute := fun tmpl path _ fs =>
    if String.eqb tmpl "template_model_test"
    then (fs, Some "template: no such template")
    else ((fst fs, snd fs ++ [(path, tmpl)]), None);
  commands.named_ToCamelCase := fun name => [name];
  commands.strings_Title := fun s => s;
  commands.strings_ToLower := fun s => s
|}.

(** The world with the working directory [wd], the files [files], and
    nothing on the standard error. *)
Definition world (wd : string) (files : list (string * string))
  : @commands.World memory_platform :=
  @commands.Build_World memory_platform (wd, files) [].

(** ** A stage to run

    The exchange is the list of the values of the header [x-gogo-hooks];
    every hook adds its name to it and answers as told. *)
Definition header_hook (name : string) (answer : bool)
  : hooks.NamedHook (list string) :=
  {| hooks.Name := name;
     hooks.Apply := fun headers => (answer, headers ++ [name]) |}.

Definition three_hooks : list (hooks.NamedHook (list string)) :=
  [header_hook "h1" true; header_hook "h2" false; header_hook "h3" true].

(* ================================================================= *)
(** * Part II: theorems *)
(* ================================================================= *)

Example path_Clean_examples :
  path_Clean "abc//def/../ghi/." = "abc/ghi"
  /\ path_Clean "/../a/b/../c/" = "/a/c"
  /\ path_Clean "../../x" = "../../x"
  /\ path_Clean "a/../.." = ".."
  /\ path_Clean "" = "."
  /\ path_Clean "/" = "/"
  /\ path_Clean "abc/def/../../.." = ".."
  /\ path_Clean "abc/./../def" = "def"
  /\ path_Clean "/abc/def/../../.." = "/"
  /\ path_Clean "abc/def/../../../ghi/jkl/../../../mno" = "../../mno"
  /\ path_Clean "abc/../../././../def" = "../../def"
  /\ path_Clean "abc/def/../.." = "."
  /\ path_Clean "///abc//" = "/abc"
  /\ path_Clean "/." = "/"
  /\ path_Clean ".." = ".."
  /\ path_Clean "a.b/..c/.d" = "a.b/..c/.d".
Proof. vm_compute. repeat split. Qed.

Example path_Join_examples :
  path_Join ["logs"; "app.log"] = "logs/app.log"
  /\ path_Join [""; "app.log"] = "app.log"
  /\ path_Join ["a"; ""; "b"] = "a/b"
  /\ path_Join [""; ""] = ""
  /\ path_Join ["a/"; "/b"] = "a/b"
  /\ path_Join ["app"; "controllers"] = "app/controllers"
  /\ path_Join [""; "gogo"; "app/models"] = "gogo/app/models".
Proof. vm_compute. repeat split. Qed.

Example strings_examples :
  strings_Split "user_profile" "_" = ["user"; "profile"]
  /\ strings_Split "_a__b_" "_" = [""; "a"; ""; "b"; ""]
  /\ strings_Split "" "_" = [""]
  /\ strings_Join ["a"; "b"; "c"] "_" = "a_b_c"
  /\ strings_TrimSuffix "/home/gogo/" "/" = "/home/gogo"
  /\ strings_TrimSuffix "/home/gogo" "/gogo" = "/home"
  /\ strings_TrimSuffix "/home" "/gogo" = "/home"
  /\ strings_TrimSuffix "go" "/gogo" = "go"
  /\ strings_Contains "/home/gogo/app" "/gogo/" = true
  /\ strings_Contains "gogo/app" "/gogo/" = false
  /\ strings_Contains "" "" = true.
Proof. vm_compute. repeat split. Qed.

(** ** The heap *)

Section GogoFacts.
Context `{LoggerLib}.

Lemma heap_modify_eq l f s :
  heap (modify l f s) !! l = f <$> heap s !! l.
Proof. apply list_lookup_alter_eq. Qed.

Lemma heap_modify_ne l l' f s :
  l ≠ l' -> heap (modify l f s) !! l' = heap s !! l'.
Proof. intros Hne. unfold modify; simpl. by apply list_lookup_alter_ne. Qed.

Lemma length_heap_modify l f s :
  length (heap (modify l f s)) = length (heap s).
Proof. unfold modify; simpl. apply length_alter. Qed.

Lemma opened_modify l f s : opened (modify l f s) = opened s.
Proof. reflexivity. Qed.

Lemma modify_id l f s : (forall a, f a = a) -> modify l f s = s.
Proof.
  intros Hf. destruct s as [h o]. unfold modify; simpl.
  f_equal. by apply list_alter_id.
Qed.

Lemma modify_modify l f g s :
  modify l f (modify l g s) = modify l (f ∘ g) s.
Proof. unfold modify; simpl. f_equal. apply list_alter_alter_eq. Qed.

(** A reader that locks and unlocks leaves the mutex, and the whole state,
    as it found them. *)
Lemma RUnlock_RLock l s : RUnlock l (RLock l s) = s.
Proof.
  unfold RUnlock, RLock. rewrite modify_modify.
  apply modify_id. intros [lg m p r]. reflexivity.
Qed.

(** ** The fast path of [New] *)

Lemma New_same_id l a pick s :
  heap s !! l = Some a ->
  AppLogger_New (Some l) (requestID a) pick s = (Return (vAppLogger (Some l)), s).
Proof.
  intros Hl. unfold AppLogger_New, bind, update, load, ret.
  unfold RLock at 1. rewrite heap_modify_eq, Hl. simpl.
  rewrite String.eqb_refl. by rewrite RUnlock_RLock.
Qed.

(** C1. For every [AppLogger] whose [requestID] field equals the argument,
    [New] returns the receiver itself, and the state after the call is the
    state before it: no object has changed and the free list was not
    touched. *)
Theorem New_same_id_returns_receiver (s : State) (l : loc) (a : AppLogger)
    (id : string) (pick : option nat) :
  heap s !! l = Some a ->
  requestID a = id ->
  AppLogger_New (Some l) id pick s = (Return (vAppLogger (Some l)), s).
Proof. intros Hl <-. by apply New_same_id. Qed.

(** ** [NewAppLogger] *)

Lemma sink_of_state output filename s r s' :
  sink_of output filename s = (r, s') -> s' = s.
Proof.
  unfold sink_of, ret, raise.
  destruct (existsb _ _); [congruence|].
  destruct output as [|c rest]; [congruence|].
  destruct (negb _); congruence.
Qed.

(** The sink [NewAppLogger] asks the logger library for, when the output
    is not empty. *)
Lemma sink_of_nonempty output filename s :
  output <> "" ->
  sink_of output filename s =
    (Return (if existsb (String.eqb output) ["stdout"; "stderr"; "null"; "nil"]
                || strings_HasPrefix output "/"
             then output
             else path_Join [output; filename +:+ ".log"]), s).
Proof.
  intros Hne. unfold sink_of, ret.
  destruct (existsb _ _) eqn:Hk; [reflexivity|]. simpl.
  destruct output as [|c rest]; [done|].
  unfold is_slash. simpl.
  destruct (Ascii.eqb c "/"); simpl; [by destruct rest|reflexivity].
Qed.

(** What [NewAppLogger] does once the sink is known. *)
Lemma NewAppLogger_unfold output filename s out :
  sink_of output filename s = (Return out, s) ->
  NewAppLogger output filename s =
    match logger_New out with
    | inr err =>
        (Panic (LogPanicf out err),
         {| heap := heap s; opened := opened s ++ [out] |})
    | inl lg =>
        (Return (Some (length (heap s))),
         {| heap := heap s ++
                    [ {| Logger := logger_Logger_New lg;
                         mux := 0;
                         pool := {| idle := []; New := Some lg |};
                         requestID := "" |} ];
            opened := opened s ++ [out] |})
    end.
Proof.
  intros Hs. unfold NewAppLogger, bind. rewrite Hs.
  unfold call_logger_New. destruct (logger_New out) as [lg|err]; [|reflexivity].
  unfold alloc, update, modify, ret, raise; simpl. do 2 f_equal.
  rewrite (alter_app_r_alt _ (heap s)) by lia.
  by rewrite Nat.sub_diag.
Qed.

Lemma NewAppLogger_empty_output (filename : string) (s : State) :
  NewAppLogger "" filename s = (Panic IndexOutOfRange, s).
Proof. reflexivity. Qed.

(** C10. With the empty output, [NewAppLogger] panics on [output[0]],
    whatever the filename and the logger library: nothing was handed to
    [logger.New] and no object was built. *)
Theorem NewAppLogger_empty_output_panics (filename : string) (s : State) :
  NewAppLogger "" filename s = (Panic IndexOutOfRange, s).
Proof.
  unfold NewAppLogger, bind.
  (* "" is none of the four names, and has no byte 0 *)
  change (sink_of "" filename s) with (@raise _ string IndexOutOfRange s).
  reflexivity.
Qed.

(** C5. [NewAppLogger] has no error result. When the logger library fails
    to open the sink the call panics with that error; when it opens it the
    call returns a pointer that is not nil, to a new object whose logger
    derives from the one the library built and whose pool got its
    constructor; and in no other way does the call end, except for the
    index panic on the empty output. *)
Theorem NewAppLogger_panics_or_returns_handle (output filename : string) (s : State) :
  (forall out err,
      sink_of output filename s = (Return out, s) ->
      logger_New out = inr err ->
      fst (NewAppLogger output filename s) = Panic (LogPanicf out err))
  /\ (forall out lg,
      sink_of output filename s = (Return out, s) ->
      logger_New out = inl lg ->
      exists l a,
        fst (NewAppLogger output filename s) = Return (Some l)
        /\ heap s !! l = None
        /\ heap (snd (NewAppLogger output filename s)) !! l = Some a
        /\ Logger a = logger_Logger_New lg
        /\ New (pool a) = Some lg)
  /\ match fst (NewAppLogger output filename s) with
     | Return p => p <> None
     | Panic IndexOutOfRange => output = ""
     | Panic (LogPanicf out err) => logger_New out = inr err
     | Panic _ => False
     | Delegated _ _ => False
     end.
Proof.
  split; [|split].
  - intros out err Hs He. rewrite (NewAppLogger_unfold _ _ _ _ Hs), He. reflexivity.
  - intros out lg Hs Hl. rewrite (NewAppLogger_unfold _ _ _ _ Hs), Hl. simpl.
    eexists _, _. split; [reflexivity|]. split; [|split; [|split]].
    + apply lookup_ge_None_2. lia.
    + rewrite lookup_app_r by lia. by rewrite Nat.sub_diag.
    + reflexivity.
    + reflexivity.
  - destruct output as [|c rest].
    + by rewrite NewAppLogger_empty_output.
    + assert (String c rest <> "") as Hne by discriminate.
      rewrite (NewAppLogger_unfold _ _ _ _ (sink_of_nonempty _ filename s Hne)).
      destruct (logger_New _) as [lg|err] eqn:E; simpl; [done|exact E].
Qed.

(** C7, at the input where the code parts from it. An empty output is not one
    of the four names and does not begin with a slash, and its join with
    the derived filename is that filename; yet [NewAppLogger] hands nothing
    to [logger.New] and panics on [output[0]]. *)
Theorem NewAppLogger_empty_output_not_joined (s : State) :
  path_Join [""; "app" +:+ ".log"] = "app.log"
  /\ fst (NewAppLogger "" "app" s) = Panic IndexOutOfRange
  /\ opened (snd (NewAppLogger "" "app" s)) = opened s.
Proof.
  split; [by vm_compute|].
  by rewrite NewAppLogger_empty_output.
Qed.

(** For every output that is not empty, the sink handed to [logger.New] is
    the output itself when it is one of the four names or begins with a
    slash, and else its join with [filename + ".log"]. *)
Lemma NewAppLogger_opened (output filename : string) (s : State) :
  output <> "" ->
  opened (snd (NewAppLogger output filename s)) =
    opened s ++
    [if existsb (String.eqb output) ["stdout"; "stderr"; "null"; "nil"]
        || strings_HasPrefix output "/"
     then output
     else path_Join [output; filename +:+ ".log"]].
Proof.
  intros Hne.
  rewrite (NewAppLogger_unfold _ _ _ _ (sink_of_nonempty _ filename s Hne)).
  by destruct (logger_New _).
Qed.

(** ** Loggers from a context *)

Section ContextFacts.
Context {ctxKey : Type} `{EqDecision ctxKey}.
Variable ctxLoggerKey : ctxKey.

Lemma assert_Logger_not_nil v lg : assert_Logger v = Some lg -> lg = v /\ lg <> vNil.
Proof. destruct v as [|p|[] i]; simpl; intros [=]; subst; done. Qed.

(** C6. Provided the logger library opens the sink ["stderr"], both
    [NewContextLogger], for every context, and [NewRequestLogger], for every
    request through its context, return the [Logger] attached under the
    logger key when there is one, and otherwise a newly built handle on the
    stderr sink; the result is never nil. *)
Theorem NewContextLogger_attached_or_default
    (ctx : Context) (r : http_Request) (s : State) (lg : logger_Logger) :
  logger_New "stderr" = inl lg ->
  retrieves ctxLoggerKey ctx (NewContextLogger ctxLoggerKey ctx) s
  /\ retrieves ctxLoggerKey (Request_Context r) (NewRequestLogger ctxLoggerKey r) s.
Proof.
  intros Hlg.
  assert (forall c, retrieves ctxLoggerKey c (NewContextLogger ctxLoggerKey c) s) as Hc.
  { intros c. unfold retrieves, NewContextLogger.
    destruct (assert_Logger _) as [v|] eqn:Ha.
    - split; [reflexivity|]. by apply assert_Logger_not_nil in Ha.
    - unfold bind.
      rewrite (NewAppLogger_unfold "stderr" "" s "stderr" eq_refl), Hlg.
      eexists _, lg, _. split; [reflexivity|]. simpl.
      split; [rewrite lookup_app_r by lia; by rewrite Nat.sub_diag|].
      by repeat split. }
  split; [apply Hc|]. unfold NewRequestLogger. apply Hc.
Qed.

End ContextFacts.

End GogoFacts.

(** ** The slow path of [New] *)

Section PoolFacts.
Context `{LoggerLib}.

Lemma heap_modify l f s x :
  heap (modify l f s) !! x =
    if decide (l = x) then f <$> heap s !! x else heap s !! x.
Proof.
  unfold modify; simpl. rewrite list_lookup_alter.
  repeat case_decide; subst; try reflexivity; contradiction.
Qed.

Lemma heap_RLock l s x :
  heap (RLock l s) !! x =
    if decide (l = x) then (fun a => set_mux (S (mux a)) a) <$> heap s !! x
    else heap s !! x.
Proof. apply heap_modify. Qed.

Lemma heap_RUnlock l s x :
  heap (RUnlock l s) !! x =
    if decide (l = x) then (fun a => set_mux (pred (mux a)) a) <$> heap s !! x
    else heap s !! x.
Proof. apply heap_modify. Qed.

(** Writing in place frees nothing. *)
Lemma live_modify l f s x :
  is_Some (heap s !! x) -> is_Some (heap (modify l f s) !! x).
Proof. intros [h Hh]. rewrite heap_modify, Hh. case_decide; simpl; eauto. Qed.

Lemma New_stamp_handle n id s :
  New_stamp (vAppLogger (Some n)) id s = (Return (vAppLogger (Some n)), stamped n id s).
Proof. reflexivity. Qed.

Lemma heap_stamped_eq n id s h :
  heap s !! n = Some h ->
  heap (stamped n id s) !! n =
    Some {| Logger := logger_Logger_SetTags [id] (Logger h);
            mux := mux h; pool := pool h; requestID := id |}.
Proof.
  intros Hn. unfold stamped. rewrite !heap_modify_eq, Hn. reflexivity.
Qed.

Lemma heap_stamped_ne n id s x :
  n <> x -> heap (stamped n id s) !! x = heap s !! x.
Proof. intros Hne. unfold stamped. by rewrite !heap_modify_ne. Qed.

(** [pool.Get] takes the idle item the choice points at. *)
Lemma Pool_Get_idle l a i x s :
  heap s !! l = Some a ->
  idle (pool a) !! i = Some x ->
  Pool_Get l (Some i) s =
    (Return x,
     modify l (fun a => set_pool {| idle := delete i (idle (pool a));
                                   New := New (pool a) |} a) s).
Proof.
  intros Hl Hi. unfold Pool_Get, bind, load. rewrite Hl. simpl. rewrite Hi.
  reflexivity.
Qed.

(** [pool.Get] takes no idle item and calls the constructor. *)
Lemma Pool_Get_New l a pick lg s :
  heap s !! l = Some a ->
  pick ≫= (fun i => idle (pool a) !! i) = None ->
  New (pool a) = Some lg ->
  Pool_Get l pick s =
    (Return (vAppLogger (Some (length (heap s)))),
     {| heap := heap s ++ [fresh_AppLogger lg]; opened := opened s |}).
Proof.
  intros Hl Hp HN. unfold Pool_Get, bind, load. rewrite Hl.
  destruct pick as [i|]; simpl in Hp; [rewrite Hp|]; unfold Pool_New; by rewrite HN.
Qed.

(** Without a constructor the answer is the nil interface. *)
Lemma Pool_Get_nil l a pick s :
  heap s !! l = Some a ->
  pick ≫= (fun i => idle (pool a) !! i) = None ->
  New (pool a) = None ->
  Pool_Get l pick s = (Return vNil, s).
Proof.
  intros Hl Hp HN. unfold Pool_Get, bind, load. rewrite Hl.
  destruct pick as [i|]; simpl in Hp; [rewrite Hp|]; unfold Pool_New; by rewrite HN.
Qed.

(** [New] with an id other than the cached one: lock, [pool.Get], the type
    switch, and the deferred unlock. *)
Lemma New_other_id_unfold l a id pick s :
  heap s !! l = Some a ->
  requestID a <> id ->
  AppLogger_New (Some l) id pick s =
    match Pool_Get l pick (RLock l s) with
    | (Return lg, s1) =>
        let '(r, s2) := New_stamp lg id s1 in (r, RUnlock l s2)
    | (Panic why, s1) => (Panic why, RUnlock l s1)
    | (Delegated impl id', s1) => (Delegated impl id', RUnlock l s1)
    end.
Proof.
  intros Hl Hne. unfold AppLogger_New, bind, update, load, deferred.
  rewrite heap_RLock, decide_True, Hl by done. simpl.
  apply String.eqb_neq in Hne. rewrite Hne.
  destruct (Pool_Get l pick (RLock l s)) as [[lg|why|impl id'] s1]; reflexivity.
Qed.

Lemma length_heap_RLock l s : length (heap (RLock l s)) = length (heap s).
Proof. apply length_heap_modify. Qed.

Lemma AppLogger_RequestID_live n h s :
  heap s !! n = Some h -> AppLogger_RequestID (Some n) s = (Return (requestID h), s).
Proof. intros Hn. unfold AppLogger_RequestID, bind, load. by rewrite Hn. Qed.

(** The slow path when [pool.Get] answers the idle handle [n]: the state
    after the call. *)
Lemma New_pooled l a id i n s :
  heap s !! l = Some a ->
  requestID a <> id ->
  idle (pool a) !! i = Some (vAppLogger (Some n)) ->
  AppLogger_New (Some l) id (Some i) s =
    (Return (vAppLogger (Some n)),
     RUnlock l (stamped n id
       (modify l (fun a => set_pool {| idle := delete i (idle (pool a));
                                      New := New (pool a) |} a)
          (RLock l s)))).
Proof.
  intros Hl Hne Hi. rewrite (New_other_id_unfold l a) by done.
  erewrite Pool_Get_idle; [| rewrite heap_RLock, decide_True, Hl by done; reflexivity | exact Hi].
  reflexivity.
Qed.

(** The slow path when [pool.Get] calls the constructor. *)
Lemma New_fresh l a id pick lg s :
  heap s !! l = Some a ->
  requestID a <> id ->
  pick ≫= (fun i => idle (pool a) !! i) = None ->
  New (pool a) = Some lg ->
  AppLogger_New (Some l) id pick s =
    (Return (vAppLogger (Some (length (heap s)))),
     RUnlock l (stamped (length (heap s)) id
       {| heap := heap (RLock l s) ++ [fresh_AppLogger lg];
          opened := opened s |})).
Proof.
  intros Hl Hne Hp HN. rewrite (New_other_id_unfold l a) by done.
  erewrite Pool_Get_New; [| rewrite heap_RLock, decide_True, Hl by done; reflexivity | exact Hp | exact HN].
  rewrite length_heap_RLock. reflexivity.
Qed.

(** On such a pool the slow path goes through the [*AppLogger] branch of the
    type switch: [pool.Get] answers a handle, and the call returns it
    stamped. *)
Lemma New_other_id_branch l a id pick s :
  heap s !! l = Some a ->
  requestID a <> id ->
  is_Some (New (pool a)) ->
  Forall (handle_value s) (idle (pool a)) ->
  exists n s1,
    Pool_Get l pick (RLock l s) = (Return (vAppLogger (Some n)), s1)
    /\ AppLogger_New (Some l) id pick s
       = (Return (vAppLogger (Some n)), RUnlock l (stamped n id s1)).
Proof.
  intros Hl Hne [lg HN] Hall.
  assert (heap (RLock l s) !! l = Some (set_mux (S (mux a)) a)) as Hl1.
  { by rewrite heap_RLock, decide_True, Hl. }
  destruct (pick ≫= (fun i => idle (pool a) !! i)) as [x|] eqn:Hp.
  - destruct pick as [i|]; [simpl in Hp|done].
    destruct (proj1 (Forall_lookup _ _) Hall i x Hp) as (n & -> & _).
    eexists n, _. split.
    + exact (Pool_Get_idle l (set_mux (S (mux a)) a) i _ (RLock l s) Hl1 Hp).
    + by apply (New_pooled l a).
  - eexists _, _. split.
    + exact (Pool_Get_New l (set_mux (S (mux a)) a) pick lg (RLock l s) Hl1 Hp HN).
    + rewrite length_heap_RLock. change (opened (RLock l s)) with (opened s).
      by apply (New_fresh l a).
Qed.

(** What the slow path does, for a logger whose pool has the constructor
    and holds nothing but handles. *)
Lemma New_other_id_spec (s : State) (l : loc) (a : AppLogger)
    (id : string) (pick : option nat) :
  heap s !! l = Some a ->
  requestID a <> id ->
  is_Some (New (pool a)) ->
  Forall (handle_value s) (idle (pool a)) ->
  exists n h0 h s',
    AppLogger_New (Some l) id pick s = (Return (vAppLogger (Some n)), s')
    /\ ((exists i a',
           pick = Some i
           /\ idle (pool a) !! i = Some (vAppLogger (Some n))
           /\ heap s !! n = Some h0
           /\ heap s' !! l = Some a'
           /\ idle (pool a') = delete i (idle (pool a))
           /\ New (pool a') = New (pool a))
        \/ (exists lg a',
           pick ≫= (fun i => idle (pool a) !! i) = None
           /\ New (pool a) = Some lg
           /\ heap s !! n = None
           /\ h0 = fresh_AppLogger lg
           /\ heap s' !! l = Some a'
           /\ idle (pool a') = idle (pool a)
           /\ New (pool a') = New (pool a)))
    /\ (idle (pool a) = [] -> heap s !! n = None)
    /\ heap s' !! n = Some h
    /\ requestID h = id
    /\ Logger h = logger_Logger_SetTags [id] (Logger h0)
    /\ AppLogger_RequestID (Some n) s' = (Return id, s')
    /\ (forall x, is_Some (heap s !! x) -> is_Some (heap s' !! x)).
Proof.
  intros Hl Hne [lg HN] Hall.
  destruct (pick ≫= (fun i => idle (pool a) !! i)) as [x|] eqn:Hp.
  - (* an idle handle *)
    destruct pick as [i|]; [simpl in Hp|done].
    destruct (proj1 (Forall_lookup _ _) Hall i x Hp) as (n & -> & [h0 Hn]).
    set (s1 := modify l (fun a => set_pool {| idle := delete i (idle (pool a));
                                            New := New (pool a) |} a) (RLock l s)).
    assert (exists h1, heap s1 !! n = Some h1 /\ Logger h1 = Logger h0) as (h1 & Hn1 & HL1).
    { unfold s1. rewrite heap_modify, heap_RLock.
      destruct (decide (l = n)) as [<-|]; rewrite Hn; simpl; eauto. }
    assert (exists a1, heap s1 !! l = Some a1
                       /\ idle (pool a1) = delete i (idle (pool a))
                       /\ New (pool a1) = New (pool a)) as (a1 & Hl1 & Hi1 & HN1).
    { unfold s1. rewrite heap_modify, heap_RLock, !decide_True, Hl by done.
      simpl. eauto. }
    pose proof (heap_stamped_eq n id s1 h1 Hn1) as Hst.
    set (h2 := {| Logger := logger_Logger_SetTags [id] (Logger h1); mux := mux h1;
                  pool := pool h1; requestID := id |}) in Hst.
    assert (exists h, heap (RUnlock l (stamped n id s1)) !! n = Some h
              /\ requestID h = id /\ Logger h = Logger h2) as (h & Hh & Hid & HLh).
    { rewrite heap_RUnlock. destruct (decide (l = n)); rewrite Hst; simpl; eauto. }
    exists n, h0, h, (RUnlock l (stamped n id s1)).
    split; [by apply (New_pooled l a)|].
    split; [left|].
    { destruct (decide (n = l)) as [->|Hnl].
      - exists i, (set_mux (pred (mux h2)) h2).
        repeat split; try done.
        + rewrite heap_RUnlock, decide_True, Hst by done. reflexivity.
        + simpl. rewrite Hl1 in Hn1. by injection Hn1 as <-.
        + simpl. rewrite Hl1 in Hn1. by injection Hn1 as <-.
      - exists i, (set_mux (pred (mux a1)) a1).
        repeat split; try done.
        rewrite heap_RUnlock, decide_True, heap_stamped_ne, Hl1 by done.
        reflexivity. }
    split; [intros Hnil; by rewrite Hnil in Hp|].
    split; [done|]. split; [done|].
    split; [by rewrite HLh; simpl; rewrite HL1|].
    split; [rewrite (AppLogger_RequestID_live n h) by done; by rewrite Hid|].
    intros x Hx. unfold s1, stamped, RUnlock, RLock. by repeat apply live_modify.
  - (* the constructor *)
    set (n := length (heap s)).
    set (s1 := {| heap := heap (RLock l s) ++ [fresh_AppLogger lg];
                  opened := opened s |}).
    assert (l <> n) as Hln.
    { apply lookup_lt_Some in Hl. unfold n. lia. }
    assert (heap s1 !! n = Some (fresh_AppLogger lg)) as Hn1.
    { unfold s1, n; cbn [heap].
      rewrite lookup_app_r; rewrite length_heap_RLock; [|lia].
      by rewrite Nat.sub_diag. }
    pose proof (heap_stamped_eq n id s1 _ Hn1) as Hst.
    set (h2 := {| Logger := logger_Logger_SetTags [id] (Logger (fresh_AppLogger lg));
                  mux := mux (fresh_AppLogger lg);
                  pool := pool (fresh_AppLogger lg); requestID := id |}) in Hst.
    assert (heap (RUnlock l (stamped n id s1)) !! n = Some h2) as Hh.
    { by rewrite heap_RUnlock, decide_False, Hst. }
    exists n, (fresh_AppLogger lg), h2, (RUnlock l (stamped n id s1)).
    split; [by apply (New_fresh l a)|].
    split; [right|].
    { exists lg, (set_mux (pred (S (mux a))) (set_mux (S (mux a)) a)).
      repeat split; try done.
      - apply lookup_ge_None_2. unfold n. lia.
      - rewrite heap_RUnlock, decide_True, heap_stamped_ne by done.
        unfold s1; cbn [heap]. rewrite lookup_app_l.
        + rewrite heap_RLock, decide_True, Hl by done. reflexivity.
        + rewrite length_heap_RLock. by apply lookup_lt_Some in Hl. }
    split; [intros _; apply lookup_ge_None_2; unfold n; lia|].
    split; [done|]. split; [done|]. split; [done|].
    split; [by rewrite (AppLogger_RequestID_live n h2)|].
    intros x Hx. unfold stamped, RUnlock. repeat apply live_modify.
    unfold s1; cbn [heap]. apply lookup_lt_is_Some. rewrite length_app.
    apply lookup_lt_is_Some in Hx. rewrite length_heap_RLock. lia.
Qed.

(** C2, amended. For a logger whose pool has the constructor closure and
    holds nothing but handles, and for an id other than the cached one, [New]
    returns a handle that [pool.Get] either took from the free list (which
    then lacks it) or had the constructor allocate at an address that was
    free (always so when the list is empty); that handle has its [requestID]
    field and its tags set to the id, so [RequestID()] answers the id. *)
Theorem New_other_id_stamps_handle (s : State) (l : loc) (a : AppLogger)
    (id : string) (pick : option nat) :
  heap s !! l = Some a ->
  requestID a <> id ->
  is_Some (New (pool a)) ->
  Forall (handle_value s) (idle (pool a)) ->
  exists n h0 h s',
    AppLogger_New (Some l) id pick s = (Return (vAppLogger (Some n)), s')
    /\ ((exists i a',
           pick = Some i
           /\ idle (pool a) !! i = Some (vAppLogger (Some n))
           /\ heap s !! n = Some h0
           /\ heap s' !! l = Some a'
           /\ idle (pool a') = delete i (idle (pool a)))
        \/ (exists lg a',
           pick ≫= (fun i => idle (pool a) !! i) = None
           /\ New (pool a) = Some lg
           /\ heap s !! n = None
           /\ h0 = fresh_AppLogger lg
           /\ heap s' !! l = Some a'
           /\ idle (pool a') = idle (pool a)))
    /\ (idle (pool a) = [] -> heap s !! n = None)
    /\ heap s' !! n = Some h
    /\ requestID h = id
    /\ Logger h = logger_Logger_SetTags [id] (Logger h0)
    /\ AppLogger_RequestID (Some n) s' = (Return id, s').
Proof.
  intros Hl Hne HN Hall.
  destruct (New_other_id_spec s l a id pick Hl Hne HN Hall)
    as (n & h0 & h & s' & HNew & Hfrom & Hnil & Hh & Hid & Htags & HRid & _).
  exists n, h0, h, s'. repeat split; try done.
  destruct Hfrom as [(i & a' & ? & ? & ? & ? & ? & _)
                    |(lg & a' & ? & ? & ? & ? & ? & ? & _)].
  - left. by exists i, a'.
  - right. by exists lg, a'.
Qed.

End PoolFacts.

(** ** Histories of [New] and [Reuse] on a logger from [NewAppLogger] *)

Section HistoryFacts.
Context `{LoggerLib}.

Lemma handle_value_mono s s' v :
  (forall x, is_Some (heap s !! x) -> is_Some (heap s' !! x)) ->
  handle_value s v -> handle_value s' v.
Proof. intros Hmono (n & -> & Hn). exists n. split; [done|]. by apply Hmono. Qed.

(** [NewAppLogger] leaves its logger with an empty pool that has the
    constructor. *)
Lemma NewAppLogger_pool output filename s alog s1 :
  NewAppLogger output filename s = (Return alog, s1) ->
  exists l a, alog = Some l
    /\ heap s1 !! l = Some a
    /\ requestID a = ""
    /\ idle (pool a) = []
    /\ is_Some (New (pool a)).
Proof.
  intros HN. destruct output as [|c rest].
  - by rewrite NewAppLogger_empty_output in HN.
  - assert (String c rest <> "") as Hne by discriminate.
    rewrite (NewAppLogger_unfold _ _ _ _ (sink_of_nonempty _ filename s Hne)) in HN.
    destruct (logger_New _) as [lg|err]; [|done].
    injection HN as <- <-. eexists _, _. split; [reflexivity|].
    split; [cbn [heap]; rewrite lookup_app_r by lia; by rewrite Nat.sub_diag|].
    cbn. by eauto.
Qed.

(** [New] keeps a pool of handles a pool of handles. *)
Lemma pool_of_handles_New s l id pick :
  pool_of_handles s l ->
  pool_of_handles (snd (AppLogger_New (Some l) id pick s)) l.
Proof.
  intros (a & Hl & HN & Hall).
  destruct (decide (requestID a = id)) as [<-|Hne].
  - rewrite (New_same_id l a) by done. by exists a.
  - destruct (New_other_id_spec s l a id pick Hl Hne HN Hall)
      as (n & h0 & h & s' & -> & Hfrom & _ & _ & _ & _ & _ & Hmono).
    cbn [snd].
    destruct Hfrom as [(i & a' & _ & _ & _ & Hl' & Hi & HN')
                      |(lg & a' & _ & _ & _ & _ & Hl' & Hi & HN')];
      exists a'; rewrite Hi, HN'; repeat split; try done.
    + apply Forall_delete.
      eapply Forall_impl; [exact Hall|]. intros v. by apply handle_value_mono.
    + eapply Forall_impl; [exact Hall|]. intros v. by apply handle_value_mono.
Qed.

(** So does [Reuse] of a handle. *)
Lemma pool_of_handles_Reuse s l lg :
  pool_of_handles s l ->
  handle_value s lg ->
  pool_of_handles (snd (AppLogger_Reuse (Some l) lg s)) l.
Proof.
  intros (a & Hl & HN & Hall) Hlg.
  pose proof Hlg as (n & -> & Hn).
  unfold AppLogger_Reuse, update, Pool_Put. cbn [snd].
  eexists. rewrite heap_modify, decide_True, Hl by done.
  split; [reflexivity|]. split; [done|]. cbn [pool set_pool idle].
  apply Forall_cons. split.
  - eapply handle_value_mono; [|exact Hlg]. intros x. apply live_modify.
  - eapply Forall_impl; [exact Hall|]. intros v.
    apply handle_value_mono. intros x. apply live_modify.
Qed.

Lemma pool_of_handles_run_calls l calls s :
  pool_of_handles s l ->
  reuses_handles (Some l) calls s ->
  pool_of_handles (run_calls (Some l) calls s) l.
Proof.
  revert s. induction calls as [|c calls IH]; intros s Hp Hr; [done|].
  destruct Hr as [Hc Hr]. cbn [run_calls]. apply IH; [|done].
  destruct c as [id pick|lg]; cbn [do_call].
  - by apply pool_of_handles_New.
  - unfold bind. pose proof (pool_of_handles_Reuse s l lg Hp Hc) as Hp'.
    by destruct (AppLogger_Reuse (Some l) lg s) as [[[]| |] s'].
Qed.

(** On a pool of handles, [New] returns a handle that answers the id, by
    the shortcut or by the [*AppLogger] branch of the type switch. *)
Lemma New_on_pool_of_handles s l id pick :
  pool_of_handles s l ->
  exists n s' a,
    AppLogger_New (Some l) id pick s = (Return (vAppLogger (Some n)), s')
    /\ AppLogger_RequestID (Some n) s' = (Return id, s')
    /\ heap s !! l = Some a
    /\ ((requestID a = id /\ n = l /\ s' = s)
        \/ (requestID a <> id
            /\ exists s1,
                 Pool_Get l pick (RLock l s) = (Return (vAppLogger (Some n)), s1)
                 /\ assert_AppLogger (vAppLogger (Some n)) = Some (Some n)
                 /\ s' = RUnlock l (stamped n id s1))).
Proof.
  intros (a & Hl & HN & Hall).
  destruct (decide (requestID a = id)) as [<-|Hne].
  - exists l, s, a. split; [by apply New_same_id|].
    split; [by apply AppLogger_RequestID_live|]. split; [done|]. by left.
  - destruct (New_other_id_spec s l a id pick Hl Hne HN Hall)
      as (n & h0 & h & s' & HNew & _ & _ & _ & _ & _ & HRid & _).
    destruct (New_other_id_branch l a id pick s Hl Hne HN Hall)
      as (n' & s1 & HGet & HNew').
    rewrite HNew in HNew'. injection HNew' as <- ->.
    eexists n, _, a. repeat split; try done. right. split; [done|]. by exists s1.
Qed.

(** The stronger assumption on a pool, that its idle handles are distinct
    objects other than the logger, holds of a new logger and is kept by
    [New], and by [Reuse] of a handle that is neither idle nor the logger
    itself. *)
Lemma pool_of_idle_handles_NewAppLogger output filename s l s1 :
  NewAppLogger output filename s = (Return (Some l), s1) ->
  pool_of_idle_handles s1 l.
Proof.
  intros HN.
  destruct (NewAppLogger_pool _ _ _ _ _ HN) as (l' & a & [= <-] & Hl & _ & Hi & HNew).
  exists a. rewrite Hi. repeat split; try done.
  - apply NoDup_nil_2.
  - apply not_elem_of_nil.
Qed.

Lemma pool_of_idle_handles_New s l id pick :
  pool_of_idle_handles s l ->
  pool_of_idle_handles (snd (AppLogger_New (Some l) id pick s)) l.
Proof.
  intros (a & Hl & HN & Hall & Hnd & Hnl).
  destruct (decide (requestID a = id)) as [<-|Hne].
  - rewrite (New_same_id l a) by done. by exists a.
  - destruct (New_other_id_spec s l a id pick Hl Hne HN Hall)
      as (n & h0 & h & s' & -> & Hfrom & _ & _ & _ & _ & _ & Hmono).
    cbn [snd].
    destruct Hfrom as [(i & a' & _ & _ & _ & Hl' & Hi & HN')
                      |(lg & a' & _ & _ & _ & _ & Hl' & Hi & HN')];
      exists a'; rewrite Hi, HN'; repeat split; try done.
    + apply Forall_delete.
      eapply Forall_impl; [exact Hall|]. intros v. by apply handle_value_mono.
    + eapply sublist_NoDup; [exact Hnd|apply sublist_delete].
    + intros Hin%list_elem_of_delete_inv. done.
    + eapply Forall_impl; [exact Hall|]. intros v. by apply handle_value_mono.
Qed.

Lemma pool_of_idle_handles_Reuse s l n :
  pool_of_idle_handles s l ->
  is_Some (heap s !! n) ->
  n <> l ->
  (forall a, heap s !! l = Some a -> vAppLogger (Some n) ∉ idle (pool a)) ->
  pool_of_idle_handles (snd (AppLogger_Reuse (Some l) (vAppLogger (Some n)) s)) l.
Proof.
  intros (a & Hl & HN & Hall & Hnd & Hnl) Hn Hne Hidle.
  unfold AppLogger_Reuse, update, Pool_Put. cbn [snd].
  eexists. rewrite heap_modify, decide_True, Hl by done.
  split; [reflexivity|]. split; [done|]. cbn [pool set_pool idle].
  split; [|split].
  - apply Forall_cons. split.
    + exists n. split; [done|]. by apply live_modify.
    + eapply Forall_impl; [exact Hall|]. intros v.
      apply handle_value_mono. intros x. apply live_modify.
  - apply NoDup_cons. split; [by apply Hidle|done].
  - apply not_elem_of_cons. split; [congruence|done].
Qed.

(** C9, amended. For a logger built by [NewAppLogger] and every history of
    [New] and [Reuse] calls on it in which every value passed to [Reuse] is
    a [*AppLogger] that is not nil, every further call of [New] returns: it
    ends by the shortcut, with the logger itself, or in the [*AppLogger]
    branch of the type switch, with the handle [pool.Get] answered; it
    neither panics nor reaches the call [lg.(Logger).New(requestID)] of the
    last line; and the handle returned answers [RequestID() == requestID].
    Every call of the history is such a further call after the calls before
    it. *)
Theorem New_never_reaches_fallback (output filename : string) (s0 s1 : State)
    (l : loc) (calls : list call) (id : string) (pick : option nat) :
  NewAppLogger output filename s0 = (Return (Some l), s1) ->
  reuses_handles (Some l) calls s1 ->
  exists n s' a,
    AppLogger_New (Some l) id pick (run_calls (Some l) calls s1)
      = (Return (vAppLogger (Some n)), s')
    /\ AppLogger_RequestID (Some n) s' = (Return id, s')
    /\ heap (run_calls (Some l) calls s1) !! l = Some a
    /\ ((requestID a = id /\ n = l /\ s' = run_calls (Some l) calls s1)
        \/ (requestID a <> id
            /\ exists s2,
                 Pool_Get l pick (RLock l (run_calls (Some l) calls s1))
                   = (Return (vAppLogger (Some n)), s2)
                 /\ assert_AppLogger (vAppLogger (Some n)) = Some (Some n)
                 /\ s' = RUnlock l (stamped n id s2))).
Proof.
  intros HN Hr.
  destruct (NewAppLogger_pool _ _ _ _ _ HN) as (l' & a & [= <-] & Hl & _ & Hi & HNew).
  apply New_on_pool_of_handles, pool_of_handles_run_calls; [|done].
  exists a. rewrite Hi. by repeat split.
Qed.

End HistoryFacts.

(** ** Two concurrent calls of [New] *)

Section ConcurrentFacts.
Context `{LoggerLib}.

Lemma preserved_modify x f s y :
  (forall a, requestID (f a) = requestID a) -> preserved s (modify x f s) y.
Proof.
  intros Hf h Hh. rewrite heap_modify, Hh.
  case_decide; simpl; eauto.
Qed.

Lemma preserved_modify_ne x f s y : x <> y -> preserved s (modify x f s) y.
Proof. intros Hne h Hh. rewrite heap_modify_ne by done. eauto. Qed.

Lemma preserved_refl s x : preserved s s x.
Proof. intros h Hh. eauto. Qed.

Lemma NoDup_delete_lookup {A} (l : list A) i x :
  NoDup l -> l !! i = Some x -> x ∉ delete i l.
Proof.
  intros Hnd Hi [j Hj]%list_elem_of_lookup_1.
  rewrite list_lookup_delete in Hj.
  pose proof (NoDup_lookup _ _ _ _ Hnd Hi Hj) as Heq.
  case_decide; lia.
Qed.

(** A handle a goroutine has is an object of the heap. *)
Lemma held_live s l id0 id pc n :
  pc_ok s l id0 id pc -> held l pc = Some n -> is_Some (heap s !! n).
Proof.
  destruct pc as [| | | |lg|m|r|r]; simpl; try done.
  - intros (m & -> & _ & Hm) [= <-]. done.
  - intros (_ & h & Hh & _) [= <-]. eauto.
  - intros (m & h & -> & Hh & _). case_decide; intros [= <-]. eauto.
  - intros (m & h & -> & Hh & _). case_decide; intros [= <-]. eauto.
Qed.

(** A step that keeps the objects a goroutine depends on keeps the goroutine
    where it may be. *)
Lemma pc_ok_frame s s' l id0 id pc :
  pc_ok s l id0 id pc ->
  (forall x, is_Some (heap s !! x) -> is_Some (heap s' !! x)) ->
  (forall n, held l pc = Some n -> preserved s s' n) ->
  preserved s s' l ->
  pc_ok s' l id0 id pc.
Proof.
  intros Hok Hlive Hheld Hroot.
  destruct pc as [| | | |lg|m|r|r]; simpl in *; try done.
  - destruct Hok as (n & -> & Hn & Hl). exists n. eauto.
  - destruct Hok as (Hm & h & Hh & Hid). split; [done|].
    destruct (Hheld m eq_refl h Hh) as (h' & ? & ?). exists h'. split; congruence.
  - destruct Hok as (n & h & -> & Hh & Hid & Hn).
    assert (preserved s s' n) as Hp.
    { destruct (decide (n = l)) as [->|Hne]; [done|].
      by apply Hheld. }
    destruct (Hp h Hh) as (h' & ? & ?). exists n, h'.
    split; [done|]. split; [done|]. split; [congruence|done].
  - destruct Hok as (n & h & -> & Hh & Hid & Hn).
    assert (preserved s s' n) as Hp.
    { destruct (decide (n = l)) as [->|Hne]; [done|].
      by apply Hheld. }
    destruct (Hp h Hh) as (h' & ? & ?). exists n, h'.
    split; [done|]. split; [done|]. split; [congruence|done].
Qed.

(** The invariant after a step of the first goroutine, from what the step
    does to the heap: it may write the [requestID] of the one object [w],
    which is neither the logger nor the other goroutine's handle, and it may
    take an idle handle away. *)
Lemma frame_inv s s' l id0 a a' g1' g2 (w : option nat) :
  heap s !! l = Some a ->
  requestID a = id0 ->
  is_Some (New (pool a)) ->
  Forall (handle_value s) (idle (pool a)) ->
  NoDup (idle (pool a)) ->
  vAppLogger (Some l) ∉ idle (pool a) ->
  goroutine_ok s l a id0 g2 ->
  heap s' !! l = Some a' ->
  requestID a' = requestID a ->
  New (pool a') = New (pool a) ->
  idle (pool a') `sublist_of` idle (pool a) ->
  (forall x, is_Some (heap s !! x) -> is_Some (heap s' !! x)) ->
  (forall x, w <> Some x -> preserved s s' x) ->
  w <> Some l ->
  (forall n, held l (g_pc g2) = Some n -> w <> Some n) ->
  goroutine_ok s' l a' id0 g1' ->
  (forall n1 n2, held l (g_pc g1') = Some n1 ->
                 held l (g_pc g2) = Some n2 -> n1 <> n2) ->
  two_inv s' l id0 g1' g2.
Proof.
  intros Hl Hid HN Hall Hnd Hnl [Hok2 Hidle2] Hl' Hid' HN' Hsub Hlive Hpres Hwl Hw2 Hg1 Hapart.
  exists a'. rewrite Hid', HN'. repeat split; try done.
  - apply Forall_forall. intros v Hv.
    eapply handle_value_mono; [exact Hlive|].
    eapply (proj1 (Forall_forall _ _) Hall), elem_of_sublist; done.
  - by eapply sublist_NoDup.
  - intros Hin. apply Hnl. by eapply elem_of_sublist.
  - apply Hg1.
  - apply Hg1.
  - eapply pc_ok_frame; [exact Hok2|done| |by apply Hpres].
    intros n Hn. apply Hpres. by apply Hw2.
  - intros n Hn Hin. eapply Hidle2; [exact Hn|]. by eapply elem_of_sublist.
Qed.

(** Every step of a goroutine keeps the invariant. *)
Lemma g_step_inv s l id0 g1 g2 :
  two_inv s l id0 g1 g2 ->
  two_inv (snd (g_step l g1 s)) l id0 (fst (g_step l g1 s)) g2.
Proof.
  intros (a & Hl & Hid & HN & Hall & Hnd & Hnl & [Hok1 Hidle1] & Hg2 & Hapart).
  destruct g1 as [id pick pc]. unfold g_step. cbn [g_id g_pick g_pc] in *.
  destruct pc as [| | | |lg|m|r|r]; cbn [New_step].
  - (* alog.mux.RLock() *)
    cbn [fst snd].
    eapply (frame_inv s _ l id0 a (set_mux (S (mux a)) a) _ g2 None); try done.
    + by rewrite heap_RLock, decide_True, Hl.
    + intros x. apply live_modify.
    + intros x _. by apply preserved_modify.
  - (* if alog.requestID == requestID *)
    rewrite Hl. destruct (String.eqb_spec (requestID a) id) as [Heq|Hne]; cbn [fst snd].
    + eapply (frame_inv s s l id0 a a _ g2 None); try done.
      * intros x _. apply preserved_refl.
      * split; [|done]. simpl. congruence.
    + eapply (frame_inv s s l id0 a a _ g2 None); try done.
      intros x _. apply preserved_refl.
  - (* alog.mux.RUnlock(); return alog *)
    cbn [fst snd]. simpl in Hok1.
    eapply (frame_inv s _ l id0 a (set_mux (pred (mux a)) a) _ g2 None); try done.
    + by rewrite heap_RUnlock, decide_True, Hl.
    + intros x. apply live_modify.
    + intros x _. by apply preserved_modify.
    + split; cbn [g_pc g_id].
      * exists l, (set_mux (pred (mux a)) a).
        rewrite heap_RUnlock, decide_True, Hl by done. simpl.
        repeat split; congruence.
      * simpl. by rewrite decide_True.
    + intros n1 n2. simpl. by rewrite decide_True.
  - (* lg := alog.pool.Get() *)
    destruct (pick ≫= (fun i => idle (pool a) !! i)) as [x|] eqn:Hp.
    + destruct pick as [i|]; [simpl in Hp|done].
      destruct (proj1 (Forall_lookup _ _) Hall i x Hp) as (n & -> & Hn).
      assert (n <> l) as Hnl'.
      { intros ->. apply Hnl. by eapply list_elem_of_lookup_2. }
      rewrite (Pool_Get_idle l a i _ s Hl Hp). cbn [fst snd].
      eapply (frame_inv s _ l id0 a
                (set_pool {| idle := delete i (idle (pool a));
                             New := New (pool a) |} a) _ g2 None); try done.
      * by rewrite heap_modify, decide_True, Hl.
      * apply sublist_delete.
      * intros x. apply live_modify.
      * intros x _. by apply preserved_modify.
      * split; cbn [g_pc g_id].
        -- exists n. repeat split; try done. by apply live_modify.
        -- intros n' [= <-]. by apply NoDup_delete_lookup.
      * intros n1 n2 [= <-] Hn2 ->.
        destruct Hg2 as [_ Hidle2]. eapply Hidle2; [exact Hn2|].
        by eapply list_elem_of_lookup_2.
    + destruct HN as [lg HN].
      rewrite (Pool_Get_New l a pick lg s Hl Hp HN). cbn [fst snd].
      pose proof (lookup_lt_Some _ _ _ Hl) as Hlt.
      assert (forall x, is_Some (heap s !! x) ->
                (heap s ++ [fresh_AppLogger lg]) !! x = heap s !! x) as Happ.
      { intros x Hx%lookup_lt_is_Some. by apply lookup_app_l. }
      eapply (frame_inv s _ l id0 a a _ g2 None); try done.
      * cbn [heap]. by rewrite Happ.
      * intros x Hx. cbn [heap]. by rewrite Happ.
      * intros x _ h Hh. cbn [heap]. rewrite Happ by eauto. eauto.
      * split; cbn [g_pc g_id].
        -- exists (length (heap s)). repeat split; [lia|]. cbn [heap].
           apply lookup_lt_is_Some. rewrite length_app. simpl. lia.
        -- intros n' [= <-] Hin.
           destruct (proj1 (Forall_forall _ _) Hall _ Hin) as (n & [= <-] & Hn).
           apply lookup_lt_is_Some in Hn. lia.
      * intros n1 n2 [= <-] Hn2 <-.
        destruct Hg2 as [Hok2 _].
        pose proof (held_live _ _ _ _ _ _ Hok2 Hn2) as Hlive%lookup_lt_is_Some. lia.
  - (* nlog.requestID = requestID *)
    simpl in Hok1. destruct Hok1 as (n & -> & Hnl' & [h Hh]).
    cbn [assert_AppLogger fst snd].
    eapply (frame_inv s _ l id0 a a _ g2 (Some n)); try done.
    + by rewrite heap_modify_ne.
    + intros x. apply live_modify.
    + intros x Hx. apply preserved_modify_ne. congruence.
    + congruence.
    + intros n2 Hn2 [= ->]. by eapply Hapart.
    + split; cbn [g_pc g_id].
      * split; [done|]. exists (set_requestID id h).
        by rewrite heap_modify_eq, Hh.
      * intros n' [= <-]. by apply Hidle1.
  - (* nlog.SetTags(requestID) *)
    simpl in Hok1. destruct Hok1 as (Hnl' & h & Hh & Hidh).
    cbn [fst snd].
    eapply (frame_inv s _ l id0 a a _ g2 None); try done.
    + by rewrite heap_modify_ne.
    + intros x. apply live_modify.
    + intros x _. by apply preserved_modify.
    + split; cbn [g_pc g_id].
      * eexists m, _. rewrite heap_modify_eq, Hh. simpl.
        repeat split; try done.
      * intros n'. simpl. rewrite decide_False by done. intros [= <-].
        by apply Hidle1.
    + intros n1 n2. simpl. rewrite decide_False by done. intros [= <-].
      by apply Hapart.
  - (* the deferred alog.mux.RUnlock() *)
    cbn [fst snd].
    eapply (frame_inv s _ l id0 a (set_mux (pred (mux a)) a) _ g2 None); try done.
    + by rewrite heap_RUnlock, decide_True, Hl.
    + intros x. apply live_modify.
    + intros x _. by apply preserved_modify.
    + split; cbn [g_pc g_id].
      * eapply (pc_ok_frame s _ l id0 id (Finished r)).
        -- exact Hok1.
        -- intros x. apply live_modify.
        -- intros n _. by apply preserved_modify.
        -- by apply preserved_modify.
      * exact Hidle1.
  - (* returned *)
    cbn [fst snd].
    eapply (frame_inv s s l id0 a a _ g2 None); try done.
    intros x _. apply preserved_refl.
Qed.

Lemma two_inv_sym s l id0 g1 g2 :
  two_inv s l id0 g1 g2 -> two_inv s l id0 g2 g1.
Proof.
  intros (a & Hl & Hid & HN & Hall & Hnd & Hnl & Hg1 & Hg2 & Hapart).
  exists a. repeat split; try done; try apply Hg1; try apply Hg2.
  intros n1 n2 Hn1 Hn2 Heq. by eapply Hapart.
Qed.

(** So does every schedule. *)
Lemma run_schedule_inv l id0 sched g1 g2 s :
  two_inv s l id0 g1 g2 ->
  two_inv (run_schedule l sched g1 g2 s).2 l id0
          (run_schedule l sched g1 g2 s).1.1
          (run_schedule l sched g1 g2 s).1.2.
Proof.
  revert g1 g2 s. induction sched as [|[] sched IH]; intros g1 g2 s Hinv; [done| |].
  - cbn [run_schedule]. pose proof (g_step_inv _ _ _ _ _ Hinv) as Hinv'.
    destruct (g_step l g1 s) as [g1' s']. by apply IH.
  - cbn [run_schedule].
    pose proof (g_step_inv _ _ _ _ _ (two_inv_sym _ _ _ _ _ Hinv)) as Hinv'.
    destruct (g_step l g2 s) as [g2' s']. by apply IH, two_inv_sym.
Qed.

(** Every step brings a call nearer to its end, whatever the state. *)
Lemma g_step_progress l g s :
  steps_left (g_pc (g_step l g s).1) <= pred (steps_left (g_pc g))
  /\ g_id (g_step l g s).1 = g_id g.
Proof.
  destruct g as [id pick pc]. unfold g_step. cbn [g_id g_pick g_pc].
  destruct pc as [| | | |lg|m|r|r]; cbn [New_step]; try (simpl; split; [lia|done]).
  - destruct (heap s !! l) as [a|]; [|simpl; split; [lia|done]].
    destruct (String.eqb _ _); simpl; split; (lia || done).
  - destruct (Pool_Get l pick s) as [[lg|why|impl id'] s']; simpl; split; (lia || done).
  - destruct lg as [|[n|]|[] impl]; simpl; split; (lia || done).
Qed.

Lemma turns_cons who b sched :
  turns who (b :: sched) = (if decide (b = who) then 1 else 0) + turns who sched.
Proof. unfold turns. rewrite filter_cons. by case_decide. Qed.

Lemma run_schedule_progress l sched g1 g2 s :
  steps_left (g_pc (run_schedule l sched g1 g2 s).1.1)
    <= steps_left (g_pc g1) - turns true sched
  /\ steps_left (g_pc (run_schedule l sched g1 g2 s).1.2)
    <= steps_left (g_pc g2) - turns false sched
  /\ g_id (run_schedule l sched g1 g2 s).1.1 = g_id g1
  /\ g_id (run_schedule l sched g1 g2 s).1.2 = g_id g2.
Proof.
  revert g1 g2 s. induction sched as [|[] sched IH]; intros g1 g2 s.
  - cbn [run_schedule]. unfold turns. simpl. repeat split; (lia || done).
  - cbn [run_schedule]. rewrite !turns_cons.
    pose proof (g_step_progress l g1 s) as [Hs Hi].
    destruct (g_step l g1 s) as [g1' s']. cbn [fst] in Hs, Hi.
    destruct (IH g1' g2 s') as (IH1 & IH2 & IH3 & IH4).
    rewrite decide_True, decide_False by done.
    repeat split; [lia|lia|congruence|done].
  - cbn [run_schedule]. rewrite !turns_cons.
    pose proof (g_step_progress l g2 s) as [Hs Hi].
    destruct (g_step l g2 s) as [g2' s']. cbn [fst] in Hs, Hi.
    destruct (IH g1 g2' s') as (IH1 & IH2 & IH3 & IH4).
    rewrite decide_False, decide_True by done.
    repeat split; [lia|lia|done|congruence].
Qed.

Lemma steps_left_0 pc : steps_left pc = 0 -> exists r, pc = Finished r.
Proof. destruct pc; simpl; try lia. eauto. Qed.

(** A finished goroutine, under the invariant: the handle it returns
    answers its id, and it is the logger itself or a handle of its own. *)
Lemma pc_ok_Finished s l id0 id r :
  pc_ok s l id0 id (Finished r) ->
  exists n, r = Return (vAppLogger (Some n))
    /\ AppLogger_RequestID (Some n) s = (Return id, s)
    /\ (n = l -> id = id0)
    /\ (n <> l -> held l (Finished r) = Some n).
Proof.
  intros (n & h & -> & Hh & Hid & Hn). exists n. split; [done|].
  split; [by rewrite (AppLogger_RequestID_live n h), Hid|].
  split; [done|]. intros Hne. simpl. by rewrite decide_False.
Qed.

(** C3, amended. Two calls [New(r1)] and [New(r2)] with [r1 <> r2] run
    concurrently on a logger whose pool has the constructor and whose idle
    handles are pairwise distinct objects other than the logger itself.
    However the steps of the two calls interleave, once each call has had
    the six steps it needs both have returned, with two different handles,
    of which the first answers [RequestID() == r1] and the second
    [RequestID() == r2]. *)
Theorem concurrent_New_gives_distinct_handles (s : State) (l : loc)
    (r1 r2 : string) (pick1 pick2 : option nat) (sched : list bool) :
  pool_of_idle_handles s l ->
  r1 <> r2 ->
  6 <= turns true sched ->
  6 <= turns false sched ->
  exists n1 n2 g1 g2 s',
    run_schedule l sched (go_New r1 pick1) (go_New r2 pick2) s = (g1, g2, s')
    /\ g_pc g1 = Finished (Return (vAppLogger (Some n1)))
    /\ g_pc g2 = Finished (Return (vAppLogger (Some n2)))
    /\ n1 <> n2
    /\ AppLogger_RequestID (Some n1) s' = (Return r1, s')
    /\ AppLogger_RequestID (Some n2) s' = (Return r2, s').
Proof.
  intros (a & Hl & HN & Hall & Hnd & Hnl) Hr Ht1 Ht2.
  assert (two_inv s l (requestID a) (go_New r1 pick1) (go_New r2 pick2)) as Hinv.
  { exists a. repeat split; done. }
  apply (run_schedule_inv l _ sched) in Hinv.
  destruct (run_schedule_progress l sched (go_New r1 pick1) (go_New r2 pick2) s)
    as (Hp1 & Hp2 & Hi1 & Hi2).
  destruct (run_schedule l sched (go_New r1 pick1) (go_New r2 pick2) s)
    as [[g1 g2] s'].
  cbn [fst snd go_New g_pc g_id steps_left] in *.
  destruct (steps_left_0 (g_pc g1)) as [x1 Hx1]; [lia|].
  destruct (steps_left_0 (g_pc g2)) as [x2 Hx2]; [lia|].
  destruct Hinv as (a' & Hl' & Hid' & _ & _ & _ & _ & [Hok1 _] & [Hok2 _] & Hapart).
  rewrite Hx1, Hi1 in Hok1. rewrite Hx2, Hi2 in Hok2.
  apply pc_ok_Finished in Hok1 as (n1 & -> & HR1 & Hroot1 & Hheld1).
  apply pc_ok_Finished in Hok2 as (n2 & -> & HR2 & Hroot2 & Hheld2).
  exists n1, n2, g1, g2, s'. repeat split; try done.
  intros <-. destruct (decide (n1 = l)) as [Heq|Hne].
  - apply Hr. by rewrite Hroot1, Hroot2.
  - eapply Hapart; [rewrite Hx1; by apply Hheld1|rewrite Hx2; by apply Hheld2|done].
Qed.

End ConcurrentFacts.

(** ** The component generator *)

Section ComponentFacts.
Import commands.
Context `{Platform}.

Lemma Valid_bounds (com : ComponentType) :
  ComponentType_Valid com = true <-> (_comType < com < comType_)%Z.
Proof.
  unfold ComponentType_Valid. rewrite andb_true_iff, !Z.ltb_lt. tauto.
Qed.

(** A "generate" block fails with the error of the system or the template
    only. *)
Lemma generate_error comRoot file tmpl comArgs w e :
  fst (generate comRoot file tmpl comArgs w) = Some e ->
  exists x, e = ErrExternal x.
Proof.
  unfold generate. destruct (os_OpenFile _ _) as [fs1|err]; simpl.
  - destruct (template_Execute _ _ _ _) as [fs2 [err|]]; simpl; [|done].
    intros [= <-]. eauto.
  - intros [= <-]. eauto.
Qed.

(** Past the two checks, [newComponent] returns no sentinel error. *)
Lemma newComponent_generating com name args w root e :
  ComponentType_Valid com = true ->
  os_Getwd (fs w) = inl root ->
  strings_Contains (ComponentType_Root com root) "/gogo/" = true ->
  fst (newComponent com name args w) = Some e ->
  exists x, e = ErrExternal x.
Proof.
  intros Hv Hwd Hc. unfold newComponent. rewrite Hv, Hwd, Hc. simpl.
  destruct (generate _ _ _ _ w) as [[e1|] w1] eqn:Hg1; simpl.
  - intros [= <-]. eapply generate_error. by rewrite Hg1.
  - apply generate_error.
Qed.

(** The four ways [newComponent] goes. *)
Lemma newComponent_cases com name args w :
  (ComponentType_Valid com = false
     /\ newComponent com name args w = (Some ErrComponentType, w))
  \/ (ComponentType_Valid com = true
     /\ exists err, os_Getwd (fs w) = inr err
          /\ fst (newComponent com name args w) = Some (ErrExternal err))
  \/ (ComponentType_Valid com = true
     /\ exists root, os_Getwd (fs w) = inl root
          /\ strings_Contains (ComponentType_Root com root) "/gogo/" = false
          /\ newComponent com name args w = (Some ErrInvalidRoot, w))
  \/ (ComponentType_Valid com = true
     /\ exists root, os_Getwd (fs w) = inl root
          /\ strings_Contains (ComponentType_Root com root) "/gogo/" = true
          /\ forall e, fst (newComponent com name args w) = Some e ->
                       exists x, e = ErrExternal x).
Proof.
  destruct (ComponentType_Valid com) eqn:Hv.
  - right. destruct (os_Getwd (fs w)) as [root|err] eqn:Hwd.
    + right.
      destruct (strings_Contains (ComponentType_Root com root) "/gogo/") eqn:Hc.
      * right. split; [done|]. exists root. repeat split; try done.
        intros e. by apply newComponent_generating with root.
      * left. split; [done|]. exists root. repeat split; try done.
        unfold newComponent. by rewrite Hv, Hwd, Hc.
    + left. split; [done|]. exists err. split; [done|].
      unfold newComponent. by rewrite Hv, Hwd.
  - left. split; [done|]. unfold newComponent. by rewrite Hv.
Qed.

(** C8. [newComponent] returns [ErrComponentType] exactly when the type is
    not strictly between [_comType] and [comType_], which are the types
    other than controller, middleware and model; for a type within the
    bounds it returns [ErrInvalidRoot] when the root resolved from the
    working directory does not contain ["/gogo/"]; and whenever it returns
    one of the two, the file system and the standard error are as they were:
    the call came back with the error before any file was opened. *)
Theorem newComponent_sentinel_errors (com : ComponentType) (name : string)
    (args : list string) (w : World) :
  (fst (newComponent com name args w) = Some ErrComponentType
     <-> ~ (_comType < com < comType_)%Z)
  /\ ((_comType < com < comType_)%Z
     <-> com = ComTypeController \/ com = ComTypeMiddleware \/ com = ComTypeModel)
  /\ (forall root,
       (_comType < com < comType_)%Z ->
       os_Getwd (fs w) = inl root ->
       strings_Contains (ComponentType_Root com root) "/gogo/" = false ->
       fst (newComponent com name args w) = Some ErrInvalidRoot)
  /\ (fst (newComponent com name args w) = Some ErrComponentType
      \/ fst (newComponent com name args w) = Some ErrInvalidRoot ->
      snd (newComponent com name args w) = w).
Proof.
  split; [|split; [|split]].
  - rewrite <- Valid_bounds.
    destruct (newComponent_cases com name args w)
      as [[Hv ->]|[(Hv & err & _ & ->)|[(Hv & root & _ & _ & ->)
         |(Hv & root & _ & _ & Hext)]]]; rewrite Hv; simpl; try done.
    split; [|done]. intros He. by destruct (Hext _ He).
  - unfold _comType, comType_, ComTypeController, ComTypeMiddleware, ComTypeModel.
    lia.
  - intros root Hv%Valid_bounds Hwd Hc. unfold newComponent.
    by rewrite Hv, Hwd, Hc.
  - destruct (newComponent_cases com name args w)
      as [[Hv ->]|[(Hv & err & _ & ->)|[(Hv & root & _ & _ & ->)
         |(Hv & root & _ & _ & Hext)]]]; simpl; try done.
    + by intros [|].
    + intros [He|He]; by destruct (Hext _ He).
Qed.

End ComponentFacts.

(** ** Hook stages *)

Section StageFacts.
Import hooks.
Context {Exchange : Type}.
Implicit Types (stage pre post : list (NamedHook Exchange)) (x : Exchange).

(** Running a stage that is a concatenation: the second part runs on what
    the first part leaves, and only when the first part reports true. *)
Lemma runStage_app pre post x :
  runStage (pre ++ post) x =
    match runStage pre x with
    | (true, x1, ran) =>
        let '(ok, x2, ran') := runStage post x1 in (ok, x2, ran ++ ran')
    | aborted => aborted
    end.
Proof.
  revert x. induction pre as [|h pre IH]; intros x; simpl.
  - by destruct (runStage post x) as [[ok x2] ran'].
  - destruct (Apply h x) as [[] x1]; [|done].
    rewrite IH. destruct (runStage pre x1) as [[[] x2] ran]; [|done].
    by destruct (runStage post x2) as [[ok x3] ran'].
Qed.

(** A stage that reports false has a first hook that returned false. *)
Lemma runStage_false stage x :
  (runStage stage x).1.1 = false ->
  exists pre h post x1,
    stage = pre ++ h :: post
    /\ runStage pre x = (true, x1, map Name pre)
    /\ (Apply h x1).1 = false.
Proof.
  revert x. induction stage as [|h stage IH]; intros x; simpl; [done|].
  destruct (Apply h x) as [[] x1] eqn:Hh.
  - destruct (runStage stage x1) as [[ok x2] ran] eqn:Hr. simpl. intros ->.
    destruct (IH x1) as (pre & h' & post & x3 & -> & Hpre & Hh'); [by rewrite Hr|].
    exists (h :: pre), h', post, x3. simpl. rewrite Hh, Hpre. done.
  - intros _. exists [], h, stage, x. simpl. by rewrite Hh.
Qed.

Lemma runStage_true stage x :
  (runStage stage x).1.1 = true -> (runStage stage x).2 = map Name stage.
Proof.
  revert x. induction stage as [|h stage IH]; intros x; simpl; [done|].
  destruct (Apply h x) as [[] x1]; [|done].
  specialize (IH x1). destruct (runStage stage x1) as [[ok x2] ran]. simpl in *.
  intros ->. by rewrite IH.
Qed.

(** C4. A stage runs its hooks in registration order, each on the exchange
    the hooks before it left. At the first hook that returns false it stops:
    it reports false, the hooks that ran are those up to that hook and no
    later one, and the exchange is as that hook left it. It reports false in
    no other case; when it reports true, every hook ran, in order; and the
    empty stage reports true without touching the exchange. *)
Theorem runStage_stops_at_first_false stage x :
  (forall pre h post x1,
      stage = pre ++ h :: post ->
      runStage pre x = (true, x1, map Name pre) ->
      (Apply h x1).1 = false ->
      runStage stage x = (false, (Apply h x1).2, map Name pre ++ [Name h]))
  /\ ((runStage stage x).1.1 = false ->
      exists pre h post x1,
        stage = pre ++ h :: post
        /\ runStage pre x = (true, x1, map Name pre)
        /\ (Apply h x1).1 = false)
  /\ ((runStage stage x).1.1 = true -> (runStage stage x).2 = map Name stage)
  /\ runStage (@nil (NamedHook Exchange)) x = (true, x, []).
Proof.
  split; [|split; [|split]].
  - intros pre h post x1 -> Hpre Hh. rewrite runStage_app, Hpre. simpl.
    by destruct (Apply h x1) as [[] x2]; simpl in *.
  - apply runStage_false.
  - apply runStage_true.
  - reflexivity.
Qed.

End StageFacts.

(** ** The definitions at work *)

(** [Test_Server_loggerNewWithReuse], with a pool that hands back the handle
    put into it: the three handles are one object, which answers the id of
    the last call. *)
Example loggerNewWithReuse :
  let '(alog, s1) := AppLogger_New (Some 0) "di-tseuqer-x" None started in
  let '(_, s2) := AppLogger_Reuse (Some 0) (vAppLogger (Some 1)) s1 in
  let '(blog, s3) := AppLogger_New (Some 0) "di-tseuqer-x" (Some 0) s2 in
  let '(_, s4) := AppLogger_Reuse (Some 0) (vAppLogger (Some 1)) s3 in
  let '(clog, s5) := AppLogger_New (Some 0) "x-request-id" (Some 0) s4 in
  alog = Return (vAppLogger (Some 1))
  /\ blog = alog /\ clog = alog
  /\ s2 = served
  /\ AppLogger_RequestID (Some 1) s1 = (Return "di-tseuqer-x", s1)
  /\ AppLogger_RequestID (Some 1) s3 = (Return "di-tseuqer-x", s3)
  /\ AppLogger_RequestID (Some 1) s5 = (Return "x-request-id", s5).
Proof. vm_compute. repeat split. Qed.

Lemma g_step_unfold `{LoggerLib} l id pick pc s :
  g_step l {| g_id := id; g_pick := pick; g_pc := pc |} s =
    ({| g_id := id; g_pick := pick; g_pc := (New_step l id pick pc s).1 |},
     (New_step l id pick pc s).2).
Proof. unfold g_step; simpl. by destruct (New_step _ _ _ _ _). Qed.

(** One call of [New] that runs alone, step by step, does what the function
    [AppLogger_New] does. *)
Lemma New_steps_alone `{LoggerLib} l id pick g2 s :
  is_Some (heap s !! l) ->
  run_schedule l [true; true; true; true; true; true] (go_New id pick) g2 s =
    ({| g_id := id; g_pick := pick;
        g_pc := Finished (AppLogger_New (Some l) id pick s).1 |},
     g2, (AppLogger_New (Some l) id pick s).2).
Proof.
  intros [a Hl]. unfold go_New. cbn [run_schedule].
  rewrite g_step_unfold. cbn [New_step fst snd].
  rewrite g_step_unfold. cbn [New_step].
  rewrite heap_RLock, decide_True, Hl by done.
  cbn [fmap option_fmap option_map requestID set_mux].
  destruct (String.eqb_spec (requestID a) id) as [<-|Hne]; cbn [fst snd].
  - rewrite !g_step_unfold. cbn [New_step fst snd].
    rewrite RUnlock_RLock. by rewrite (New_same_id l a).
  - rewrite (New_other_id_unfold l a) by done.
    rewrite g_step_unfold. cbn [New_step].
    destruct (Pool_Get l pick (RLock l s)) as [[lg|why|impl id'] s1];
      cbn [fst snd]; [|by rewrite !g_step_unfold..].
    rewrite g_step_unfold. cbn [New_step].
    destruct lg as [|[n|]|[] impl]; cbn [assert_AppLogger assert_Logger fst snd];
      by rewrite !g_step_unfold.
Qed.

(** C1, at the idle handle of [served]: its cached id is the argument. *)
Lemma New_same_id_returns_receiver_witness :
  exists a,
    heap served !! 1 = Some a
    /\ requestID a = "di-tseuqer-x"
    /\ AppLogger_New (Some 1) "di-tseuqer-x" (Some 0) served
       = (Return (vAppLogger (Some 1)), served).
Proof.
  eexists. split; [reflexivity|]. split; [reflexivity|].
  eapply (New_same_id_returns_receiver (H:=plain_logger)); reflexivity.
Defined.

(** C2 as it is stated fails for a handle that came out of the pool: such an
    [AppLogger] has a zero pool with no constructor, so for an id other than
    its own [pool.Get] answers nil and the conversion [lg.(Logger)] panics. *)
Lemma New_on_pooled_handle_panics :
  exists a,
    heap served !! 1 = Some a
    /\ requestID a <> "x-request-id"
    /\ AppLogger_New (Some 1) "x-request-id" None served
       = (Panic InterfaceConversion, served).
Proof.
  eexists. split; [reflexivity|]. split; [discriminate|]. by vm_compute.
Qed.

(** C2, amended, at the logger of [served] with the choice of its one idle
    handle. *)
Lemma New_other_id_stamps_handle_witness :
  exists a,
    heap served !! 0 = Some a
    /\ requestID a <> "x-request-id"
    /\ is_Some (New (pool a))
    /\ Forall (handle_value served) (idle (pool a))
    /\ exists n h s',
         AppLogger_New (Some 0) "x-request-id" (Some 0) served
           = (Return (vAppLogger (Some n)), s')
         /\ heap s' !! n = Some h
         /\ requestID h = "x-request-id".
Proof.
  eexists.
  assert (Forall (handle_value served) [vAppLogger (Some 1)]) as Hall.
  { apply Forall_singleton. exists 1. split; [reflexivity|]. by eexists. }
  split; [reflexivity|]. split; [discriminate|]. split; [by eexists|].
  split; [exact Hall|].
  destruct (New_other_id_stamps_handle served 0 _ "x-request-id" (Some 0)
              eq_refl ltac:(discriminate) ltac:(by eexists) Hall)
    as (n & h0 & h & s' & HNew & _ & _ & Hh & Hid & _).
  by exists n, h, s'.
Defined.

(** C3 as it is stated fails after a history in which every handle acquired
    went back to the pool exactly once: [New("")] on the new logger is the
    logger itself, by the shortcut, and [Reuse] puts it into its own pool.
    Of two concurrent calls [New("")] and [New("b")] the first then returns
    the logger by the shortcut and the second takes it from the pool: one
    object for both, and it answers ["b"]. So it is under either schedule. *)
Lemma concurrent_New_on_recycled_logger_aliases :
  (let '(g1, g2, s') :=
     run_schedule 0 one_then_other (go_New "" None) (go_New "b" (Some 0)) recycled in
   g_pc g1 = Finished (Return (vAppLogger (Some 0)))
   /\ g_pc g2 = Finished (Return (vAppLogger (Some 0)))
   /\ AppLogger_RequestID (Some 0) s' = (Return "b", s'))
  /\ (let '(g1, g2, s') :=
        run_schedule 0 alternating (go_New "" None) (go_New "b" (Some 0)) recycled in
      g_pc g1 = Finished (Return (vAppLogger (Some 0)))
      /\ g_pc g2 = Finished (Return (vAppLogger (Some 0)))
      /\ AppLogger_RequestID (Some 0) s' = (Return "b", s')).
Proof. vm_compute. repeat split. Qed.

Lemma served_pool_of_idle_handles : pool_of_idle_handles served 0.
Proof.
  eexists. split; [reflexivity|]. split; [by eexists|]. cbn [pool idle].
  split; [|split].
  - apply Forall_singleton. exists 1. split; [reflexivity|]. by eexists.
  - apply NoDup_singleton.
  - intros Hin%list_elem_of_singleton. discriminate.
Defined.

(** C3, amended, on [served]: both calls choose the one idle handle, and
    the goroutines take turns. *)
Lemma concurrent_New_gives_distinct_handles_witness :
  pool_of_idle_handles served 0
  /\ "a" <> "b"
  /\ 6 <= turns true alternating
  /\ 6 <= turns false alternating
  /\ exists n1 n2 g1 g2 s',
       run_schedule 0 alternating (go_New "a" (Some 0)) (go_New "b" (Some 0)) served
         = (g1, g2, s')
       /\ g_pc g1 = Finished (Return (vAppLogger (Some n1)))
       /\ g_pc g2 = Finished (Return (vAppLogger (Some n2)))
       /\ n1 <> n2
       /\ AppLogger_RequestID (Some n1) s' = (Return "a", s')
       /\ AppLogger_RequestID (Some n2) s' = (Return "b", s').
Proof.
  assert ("a" <> "b") as Hne by discriminate.
  assert (6 <= turns true alternating) as H1 by (vm_compute; lia).
  assert (6 <= turns false alternating) as H2 by (vm_compute; lia).
  repeat split; try done; [apply served_pool_of_idle_handles|].
  exact (concurrent_New_gives_distinct_handles served 0 "a" "b" (Some 0) (Some 0)
           alternating served_pool_of_idle_handles Hne H1 H2).
Defined.

(** What the witness stands for, computed: the first call gets the idle
    handle, the second a new one. *)
Example concurrent_New_on_served :
  let '(g1, g2, s') :=
    run_schedule 0 alternating (go_New "a" (Some 0)) (go_New "b" (Some 0)) served in
  g_pc g1 = Finished (Return (vAppLogger (Some 1)))
  /\ g_pc g2 = Finished (Return (vAppLogger (Some 2)))
  /\ AppLogger_RequestID (Some 1) s' = (Return "a", s')
  /\ AppLogger_RequestID (Some 2) s' = (Return "b", s').
Proof. vm_compute. repeat split. Qed.

(** C6, on [served]: a context with a value under another key only, and a
    request whose context has the idle handle under the logger key [0]. *)
Lemma NewContextLogger_attached_or_default_witness :
  logger_New (LoggerLib:=plain_logger) "stderr" = inl ("stderr", [])
  /\ retrieves 0 [(1, vOther false 5)]
       (NewContextLogger 0 [(1, vOther false 5)]) served
  /\ retrieves 0
       (Request_Context {| Request_ctx := Some [(0, vAppLogger (Some 1))] |})
       (NewRequestLogger 0 {| Request_ctx := Some [(0, vAppLogger (Some 1))] |})
       served.
Proof.
  split; [reflexivity|].
  exact (NewContextLogger_attached_or_default (H:=plain_logger) 0
           [(1, vOther false 5)]
           {| Request_ctx := Some [(0, vAppLogger (Some 1))] |}
           served ("stderr", []) eq_refl).
Defined.

(** What the witness stands for, computed. *)
Example NewContextLogger_on_served :
  (NewContextLogger (H:=plain_logger) 0 [(1, vOther false 5)] served).1
    = Return (vAppLogger (Some 2))
  /\ NewRequestLogger (H:=plain_logger) 0
       {| Request_ctx := Some [(0, vAppLogger (Some 1))] |} served
    = (Return (vAppLogger (Some 1)), served)
  /\ (NewRequestLogger (H:=plain_logger) 0 {| Request_ctx := None |} served).1
    = Return (vAppLogger (Some 2)).
Proof. vm_compute. repeat split. Qed.

(** C9 as it is stated fails when the value passed to [Reuse] is a nil
    [*AppLogger]: its dynamic type is [*AppLogger], so the pool keeps it and
    the type assertion of [New] succeeds, and the write to its [requestID]
    field panics. *)
Lemma New_after_Reuse_of_nil_pointer_panics :
  NewAppLogger "nil" "" empty_State = (Return (Some 0), started)
  /\ reuses_AppLoggers [CallReuse (vAppLogger None)]
  /\ (AppLogger_New (Some 0) "x-request-id" (Some 0)
        (run_calls (Some 0) [CallReuse (vAppLogger None)] started)).1
     = Panic NilDereference.
Proof.
  split; [reflexivity|]. split; [|by vm_compute].
  simpl. split; [by eexists|done].
Qed.

(** C9, amended, on the logger of [started] after two handles were acquired
    and put back. *)
Lemma New_never_reaches_fallback_witness :
  NewAppLogger "nil" "" empty_State = (Return (Some 0), started)
  /\ reuses_handles (Some 0)
       [CallNew "di-tseuqer-x" None; CallNew "x-request-id" None;
        CallReuse (vAppLogger (Some 2)); CallReuse (vAppLogger (Some 1))] started
  /\ exists n s',
       AppLogger_New (Some 0) "di-tseuqer-x" (Some 1)
         (run_calls (Some 0)
            [CallNew "di-tseuqer-x" None; CallNew "x-request-id" None;
             CallReuse (vAppLogger (Some 2)); CallReuse (vAppLogger (Some 1))]
            started)
         = (Return (vAppLogger (Some n)), s')
       /\ AppLogger_RequestID (Some n) s' = (Return "di-tseuqer-x", s').
Proof.
  assert (reuses_handles (H:=plain_logger) (Some 0)
            [CallNew "di-tseuqer-x" None; CallNew "x-request-id" None;
             CallReuse (vAppLogger (Some 2)); CallReuse (vAppLogger (Some 1))]
            started) as Hr.
  { cbn [reuses_handles]. split; [done|]. split; [done|].
    split; [exists 2; split; [reflexivity|by eexists]|].
    split; [exists 1; split; [reflexivity|by eexists]|done]. }
  split; [reflexivity|]. split; [exact Hr|].
  destruct (New_never_reaches_fallback "nil" "" empty_State started 0 _
              "di-tseuqer-x" (Some 1) eq_refl Hr)
    as (n & s' & a & HNew & HRid & _).
  by exists n, s'.
Defined.

(** The generator on the memory platform: a type out of bounds; the working
    directories [/gogo] and [/], whose resolved root is relative; a
    controller generated under [/home/dev/gogo]; a model whose test template
    fails after the first file was written. *)
Example newComponent_on_memory_platform :
  let run com wd :=
    commands.newComponent (H:=memory_platform) com "user" ["index"] (world wd []) in
  run commands.comType_ "/home/dev/gogo"
    = (Some commands.ErrComponentType, world "/home/dev/gogo" [])
  /\ commands.ComponentType_Root commands.ComTypeModel "/gogo" = "gogo/app/models"
  /\ run commands.ComTypeModel "/gogo" = (Some commands.ErrInvalidRoot, world "/gogo" [])
  /\ (run commands.ComTypeMiddleware "/").1 = Some commands.ErrInvalidRoot
  /\ run commands.ComTypeController "/home/dev/gogo"
    = (None,
       world "/home/dev/gogo"
         [("/home/dev/gogo/app/controllers/user.go", "");
          ("/home/dev/gogo/app/controllers/user.go", "template_controller");
          ("/home/dev/gogo/app/controllers/user_test.go", "");
          ("/home/dev/gogo/app/controllers/user_test.go",
           "template_controller_test")])
  /\ (run commands.ComTypeModel "/home/dev/gogo/").1
    = Some (commands.ErrExternal (H:=memory_platform) "template: no such template").
Proof. vm_compute. repeat split. Qed.

(** The stage of the specification, [h1 -> true, h2 -> false, h3 -> true]:
    [h1] and [h2] ran, [h3] did not, and the stage reports false. *)
Example runStage_three_hooks :
  hooks.runStage three_hooks [] = (false, ["h1"; "h2"], ["h1"; "h2"])
  /\ hooks.runStage [header_hook "h1" true; header_hook "h3" true] []
     = (true, ["h1"; "h3"], ["h1"; "h3"]).
Proof. vm_compute. repeat split. Qed.

(* ================================================================= *)
(** * Part III: further properties of the code *)
(* ================================================================= *)

(** ** [NewAppLogger], [New] and [Reuse] *)

Section MoreLoggerFacts.
Context `{LoggerLib}.

(** X1. For every output that is not empty, [NewAppLogger] calls
    [logger.New] exactly once, with the output itself when it is one of the
    four names or begins with a slash and with
    [path.Join(output, filename+".log")] otherwise; whether that call fails
    or not, the objects already in the heap stay as they are, and at most
    one object is added. *)
Theorem NewAppLogger_resolves_sink (output filename : string) (s : State) :
  output <> "" ->
  opened (NewAppLogger output filename s).2 =
    opened s ++
    [if existsb (String.eqb output) ["stdout"; "stderr"; "null"; "nil"]
        || strings_HasPrefix output "/"
     then output
     else path_Join [output; filename +:+ ".log"]]
  /\ (forall x a, heap s !! x = Some a ->
        heap (NewAppLogger output filename s).2 !! x = Some a)
  /\ length (heap (NewAppLogger output filename s).2) <= S (length (heap s)).
Proof.
  intros Hne.
  rewrite (NewAppLogger_unfold _ _ _ _ (sink_of_nonempty _ filename s Hne)).
  destruct (logger_New _) as [lg|err]; cbn [fst snd heap opened].
  - split; [done|]. split.
    + intros x a Hx. by apply lookup_app_l_Some.
    + rewrite length_app. simpl. lia.
  - split; [done|]. split; [done|lia].
Qed.

(** X2. The logger [NewAppLogger] returns has the empty string as its cached
    id: [New("")] on it takes the shortcut and returns the logger itself,
    not a handle of its pool, and changes nothing. *)
Theorem New_empty_id_on_new_logger (output filename : string) (s0 s1 : State)
    (l : loc) (pick : option nat) :
  NewAppLogger output filename s0 = (Return (Some l), s1) ->
  AppLogger_New (Some l) "" pick s1 = (Return (vAppLogger (Some l)), s1)
  /\ AppLogger_RequestID (Some l) s1 = (Return "", s1).
Proof.
  intros HN.
  destruct (NewAppLogger_pool _ _ _ _ _ HN) as (l' & a & [= <-] & Hl & Hid & _).
  split.
  - rewrite <- Hid. by apply New_same_id.
  - rewrite <- Hid. by apply AppLogger_RequestID_live.
Qed.

(** The object at [l] after a handle was put into the pool, taken out again,
    and the lock released is the object before. *)
Lemma put_get_object (a : AppLogger) (x : value) :
  set_mux (pred (mux (set_pool {| idle := delete 0 (x :: idle (pool a));
                                  New := New (pool a) |}
                        (set_mux (S (mux a))
                           (set_pool {| idle := x :: idle (pool a);
                                        New := New (pool a) |} a)))))
    (set_pool {| idle := delete 0 (x :: idle (pool a)); New := New (pool a) |}
       (set_mux (S (mux a))
          (set_pool {| idle := x :: idle (pool a); New := New (pool a) |} a)))
  = a.
Proof. destruct a as [lg m [i N] r]. reflexivity. Qed.

(** X3. [Reuse] and [New] are a round trip: a handle put back with [Reuse]
    is what the next [New] with another id than the cached one returns, when
    the pool hands back the item put last; the handle then answers the new
    id, the free list is what it was before the [Reuse], and every other
    object is unchanged. *)
Theorem New_after_Reuse_returns_handle (s : State) (l n : loc) (a : AppLogger)
    (id : string) :
  heap s !! l = Some a ->
  requestID a <> id ->
  is_Some (heap s !! n) ->
  exists s' a',
    AppLogger_New (Some l) id (Some 0)
      (AppLogger_Reuse (Some l) (vAppLogger (Some n)) s).2
      = (Return (vAppLogger (Some n)), s')
    /\ AppLogger_RequestID (Some n) s' = (Return id, s')
    /\ heap s' !! l = Some a'
    /\ idle (pool a') = idle (pool a)
    /\ (forall x, x <> n -> heap s' !! x = heap s !! x).
Proof.
  intros Hl Hne [h Hn].
  set (put := fun a : AppLogger =>
         set_pool {| idle := vAppLogger (Some n) :: idle (pool a);
                     New := New (pool a) |} a).
  assert ((AppLogger_Reuse (Some l) (vAppLogger (Some n)) s).2 = modify l put s)
    as -> by reflexivity.
  assert (heap (modify l put s) !! l = Some (put a)) as Hl1.
  { by rewrite heap_modify, decide_True, Hl. }
  rewrite (New_pooled l (put a) id 0 n) by done.
  set (s2 := modify l _ (RLock l (modify l put s))).
  assert (forall x, x <> n -> heap (RUnlock l (stamped n id s2)) !! x = heap s !! x)
    as Hframe.
  { intros x Hx. rewrite heap_RUnlock, heap_stamped_ne by done.
    unfold s2. rewrite heap_modify, heap_RLock, heap_modify.
    destruct (decide (l = x)) as [<-|]; [|done].
    rewrite Hl. cbn [fmap option_fmap option_map]. f_equal.
    apply (put_get_object a (vAppLogger (Some n))). }
  assert (exists h2, heap s2 !! n = Some h2) as [h2 Hn2].
  { unfold s2. apply live_modify, live_modify, live_modify. by eexists. }
  pose proof (heap_stamped_eq n id s2 h2 Hn2) as Hst.
  assert (exists h3, heap (RUnlock l (stamped n id s2)) !! n = Some h3
                     /\ requestID h3 = id) as (h3 & Hn3 & Hid3).
  { rewrite heap_RUnlock, Hst. case_decide; simpl; eauto. }
  destruct (decide (l = n)) as [->|Hln].
  - exists (RUnlock n (stamped n id s2)), h3.
    split; [done|]. split; [by rewrite (AppLogger_RequestID_live n h3), Hid3|].
    split; [done|]. split; [|done].
    (* the logger was idle in its own pool *)
    rewrite heap_RUnlock, decide_True, Hst in Hn3 by done.
    injection Hn3 as <-. cbn [pool set_mux].
    unfold s2 in Hn2. rewrite heap_modify, heap_RLock, !decide_True, Hl1 in Hn2 by done.
    by injection Hn2 as <-.
  - exists (RUnlock l (stamped n id s2)), a.
    split; [done|]. split; [by rewrite (AppLogger_RequestID_live n h3), Hid3|].
    split; [by rewrite Hframe|]. split; [done|exact Hframe].
Qed.

(** X4. [New] on a logger whose pool has no constructor and hands out no idle
    item (as is every handle that came out of a pool, with its zero pool)
    panics in the conversion [lg.(Logger)] for every id other than the
    cached one; the deferred unlock has run, and the state is as before. *)
Theorem New_without_constructor_panics (s : State) (l : loc) (a : AppLogger)
    (id : string) (pick : option nat) :
  heap s !! l = Some a ->
  requestID a <> id ->
  New (pool a) = None ->
  pick ≫= (fun i => idle (pool a) !! i) = None ->
  AppLogger_New (Some l) id pick s = (Panic InterfaceConversion, s).
Proof.
  intros Hl Hne HN Hp. rewrite (New_other_id_unfold l a) by done.
  assert (heap (RLock l s) !! l = Some (set_mux (S (mux a)) a)) as Hl1.
  { by rewrite heap_RLock, decide_True, Hl. }
  rewrite (Pool_Get_nil l _ pick _ Hl1 Hp HN).
  cbn [New_stamp assert_AppLogger assert_Logger raise]. unfold raise.
  by rewrite RUnlock_RLock.
Qed.

(** X5. When [pool.Get] answers a value that is not a [*AppLogger], [New]
    has already taken it out of the free list: the call ends in the [New] of
    that value when it is a [Logger] and in a conversion panic when it is
    not, and either way the value is gone from the pool, while the read lock
    is released and the cached id, the constructor and every other object
    are as before. *)
Theorem New_drops_other_values (s : State) (l : loc) (a : AppLogger)
    (id : string) (i : nat) (isLogger : bool) (impl : nat) :
  heap s !! l = Some a ->
  requestID a <> id ->
  idle (pool a) !! i = Some (vOther isLogger impl) ->
  (AppLogger_New (Some l) id (Some i) s).1 =
    (if isLogger then Delegated impl id else Panic InterfaceConversion)
  /\ heap (AppLogger_New (Some l) id (Some i) s).2 !! l =
       Some (set_pool {| idle := delete i (idle (pool a));
                         New := New (pool a) |} a)
  /\ (forall x, x <> l ->
        heap (AppLogger_New (Some l) id (Some i) s).2 !! x = heap s !! x).
Proof.
  intros Hl Hne Hi. rewrite (New_other_id_unfold l a) by done.
  assert (heap (RLock l s) !! l = Some (set_mux (S (mux a)) a)) as Hl1.
  { by rewrite heap_RLock, decide_True, Hl. }
  rewrite (Pool_Get_idle l _ i _ _ Hl1 Hi).
  assert (New_stamp (vOther isLogger impl) id
            (modify l (fun a0 => set_pool
               {| idle := delete i (idle (pool a0)); New := New (pool a0) |} a0)
               (RLock l s))
          = (if isLogger then Delegated impl id else Panic InterfaceConversion,
             modify l (fun a0 => set_pool
               {| idle := delete i (idle (pool a0)); New := New (pool a0) |} a0)
               (RLock l s))) as -> by (by destruct isLogger).
  cbn [fst snd]. split; [done|]. split.
  - rewrite heap_RUnlock, heap_modify, heap_RLock, !decide_True, Hl by done.
    destruct a as [lg m [idl N] r]. reflexivity.
  - intros x Hx.
    by rewrite heap_RUnlock, heap_modify, heap_RLock, !decide_False.
Qed.

(** What one [pool.Get] and the type switch do to the size of the heap and
    to the sinks opened. *)
Lemma Pool_Get_size l pick s :
  opened (Pool_Get l pick s).2 = opened s
  /\ length (heap s) <= length (heap (Pool_Get l pick s).2) <= S (length (heap s)).
Proof.
  unfold Pool_Get, Pool_New, bind, load, update, alloc, ret.
  destruct (heap s !! l) as [a|]; [|simpl; split; [done|lia]].
  destruct pick as [i|]; [destruct (idle (pool a) !! i) as [x|]|];
    try destruct (New (pool a)) as [lg|]; cbn [fst snd heap opened modify];
    rewrite ?length_app, ?length_alter; simpl; (split; [done|lia]).
Qed.

Lemma New_stamp_size lg id s :
  opened (New_stamp lg id s).2 = opened s
  /\ length (heap (New_stamp lg id s).2) = length (heap s).
Proof.
  destruct lg as [|[n|]|[] impl]; cbn; rewrite ?length_alter; done.
Qed.

(** X6. Whatever its receiver, its arguments and the state, and however it
    ends, a call of [New] opens no sink (it never calls [logger.New]), frees
    no object and adds at most one object to the heap. *)
Theorem New_allocates_at_most_one (alog : ptr) (id : string)
    (pick : option nat) (s : State) :
  opened (AppLogger_New alog id pick s).2 = opened s
  /\ length (heap s) <= length (heap (AppLogger_New alog id pick s).2)
       <= S (length (heap s))
  /\ (forall x, is_Some (heap s !! x) ->
        is_Some (heap (AppLogger_New alog id pick s).2 !! x)).
Proof.
  assert (opened (AppLogger_New alog id pick s).2 = opened s
          /\ length (heap s) <= length (heap (AppLogger_New alog id pick s).2)
               <= S (length (heap s))) as [Ho Hlen].
  { destruct alog as [l|]; [|simpl; split; [done|lia]].
    unfold AppLogger_New, bind, update, load, deferred, ret.
    destruct (heap (RLock l s) !! l) as [a|] eqn:Hl;
      [|cbn [fst snd]; rewrite length_heap_RLock; split; [done|lia]].
    destruct (String.eqb (requestID a) id).
    - cbn [fst snd]. rewrite RUnlock_RLock. split; [done|lia].
    - pose proof (Pool_Get_size l pick (RLock l s)) as [Ho1 Hs1].
      change (opened (RLock l s)) with (opened s) in Ho1.
      destruct (Pool_Get l pick (RLock l s)) as [[lg|why|impl id'] s1];
        cbn [fst snd] in *.
      + pose proof (New_stamp_size lg id s1) as [Ho2 Hs2].
        destruct (New_stamp lg id s1) as [r s2]. cbn [fst snd] in *.
        unfold RUnlock. rewrite opened_modify, length_heap_modify.
        rewrite length_heap_RLock in Hs1. split; [congruence|lia].
      + unfold RUnlock. rewrite opened_modify, length_heap_modify.
        rewrite length_heap_RLock in Hs1. split; [done|lia].
      + unfold RUnlock. rewrite opened_modify, length_heap_modify.
        rewrite length_heap_RLock in Hs1. split; [done|lia]. }
  split; [done|]. split; [done|].
  intros x Hx%lookup_lt_is_Some. apply lookup_lt_is_Some. lia.
Qed.

(** The reader count of the object at [y] through the steps of [New]. *)
Lemma mux_modify x f s y :
  (forall b, mux (f b) = mux b) ->
  mux <$> heap (modify x f s) !! y = mux <$> heap s !! y.
Proof.
  intros Hf. rewrite heap_modify. case_decide; [|done].
  destruct (heap s !! y) as [b|]; simpl; [|done]. by rewrite Hf.
Qed.

Lemma Pool_Get_mux l pick s y :
  is_Some (heap s !! y) ->
  mux <$> heap (Pool_Get l pick s).2 !! y = mux <$> heap s !! y.
Proof.
  intros Hy. unfold Pool_Get, Pool_New, bind, load, update, alloc, ret.
  destruct (heap s !! l) as [a|]; [|done].
  destruct pick as [i|]; [destruct (idle (pool a) !! i) as [x|]|];
    try destruct (New (pool a)) as [lg|]; cbn [fst snd]; try done;
    try (by apply mux_modify);
    cbn [heap]; by rewrite lookup_app_l by (by apply lookup_lt_is_Some).
Qed.

Lemma New_stamp_mux lg id s y :
  mux <$> heap (New_stamp lg id s).2 !! y = mux <$> heap s !! y.
Proof.
  destruct lg as [|[n|]|[] impl]; try reflexivity.
  rewrite New_stamp_handle. unfold stamped. cbn [snd]. by rewrite !mux_modify.
Qed.

(** X7. [New] gives the read lock back on every path: however the call
    ends, by the shortcut, with a handle, in the [New] of another [Logger]
    or in a panic (the unlock is deferred), the mutex of the receiver has as
    many readers after the call as before. *)
Theorem New_releases_lock (s : State) (l : loc) (a : AppLogger) (id : string)
    (pick : option nat) :
  heap s !! l = Some a ->
  mux <$> heap (AppLogger_New (Some l) id pick s).2 !! l = Some (mux a).
Proof.
  intros Hl.
  destruct (decide (requestID a = id)) as [<-|Hne].
  - rewrite (New_same_id l a) by done. cbn [snd]. by rewrite Hl.
  - rewrite (New_other_id_unfold l a) by done.
    assert (mux <$> heap (RLock l s) !! l = Some (S (mux a))) as Hm0.
    { by rewrite heap_RLock, decide_True, Hl. }
    assert (is_Some (heap (RLock l s) !! l)) as Hlive.
    { apply live_modify. by eexists. }
    pose proof (Pool_Get_mux l pick (RLock l s) l Hlive) as Hm1.
    rewrite Hm0 in Hm1.
    assert (forall s2, mux <$> heap s2 !! l = Some (S (mux a)) ->
              mux <$> heap (RUnlock l s2) !! l = Some (mux a)) as Hun.
    { intros s2 Hs2. rewrite heap_RUnlock, decide_True by done.
      destruct (heap s2 !! l) as [b|]; simpl in *; [|done].
      injection Hs2 as ->. done. }
    destruct (Pool_Get l pick (RLock l s)) as [[lg|why|impl id'] s1];
      cbn [fst snd] in *; try by apply Hun.
    pose proof (New_stamp_mux lg id s1 l) as Hm2.
    destruct (New_stamp lg id s1) as [r s2]. cbn [fst snd] in *.
    apply Hun. by rewrite Hm2.
Qed.

(** X8. The idle handles of a pool stay distinct objects other than the
    logger: this holds of the logger [NewAppLogger] returns and after every
    history of [New] and [Reuse] calls on it in which each value passed to
    [Reuse] is a handle that is neither the logger itself nor idle when it
    is passed. *)
Theorem pool_keeps_idle_handles_apart (output filename : string)
    (s0 s1 : State) (l : loc) (calls : list call) :
  NewAppLogger output filename s0 = (Return (Some l), s1) ->
  reuses_outstanding l calls s1 ->
  pool_of_idle_handles (run_calls (Some l) calls s1) l.
Proof.
  intros HN%pool_of_idle_handles_NewAppLogger. revert s1 HN.
  induction calls as [|c calls IH]; intros s1 Hp Hr; [done|].
  destruct Hr as [Hc Hr]. cbn [run_calls]. apply IH; [|done].
  destruct c as [id pick|lg]; cbn [do_call].
  - by apply pool_of_idle_handles_New.
  - destruct Hc as (n & -> & Hn & Hnl & Hidle).
    pose proof (pool_of_idle_handles_Reuse s1 l n Hp Hn Hnl Hidle) as Hp'.
    unfold bind.
    by destruct (AppLogger_Reuse (Some l) (vAppLogger (Some n)) s1) as [[[]| |] s'].
Qed.

End MoreLoggerFacts.

(** ** [NewContextLogger] without a logger attached *)

Section MoreContextFacts.
Context `{LoggerLib} {ctxKey : Type} `{EqDecision ctxKey}.
Variable ctxLoggerKey : ctxKey.

(** X9. With no [Logger] under the logger key, every call of
    [NewContextLogger] builds a logger of its own: two calls in a row open
    the sink ["stderr"] twice and return two different objects, the second
    call leaving the first object as it was. *)
Theorem NewContextLogger_default_is_new_each_time (ctx : Context) (s : State)
    (lg : logger_Logger) :
  logger_New "stderr" = inl lg ->
  assert_Logger (Context_Value ctx ctxLoggerKey) = None ->
  exists s1 s2,
    NewContextLogger ctxLoggerKey ctx s
      = (Return (vAppLogger (Some (length (heap s)))), s1)
    /\ NewContextLogger ctxLoggerKey ctx s1
      = (Return (vAppLogger (Some (S (length (heap s))))), s2)
    /\ opened s2 = opened s ++ ["stderr"; "stderr"]
    /\ is_Some (heap s1 !! length (heap s))
    /\ heap s2 !! length (heap s) = heap s1 !! length (heap s).
Proof.
  intros Hlg Hnone. unfold NewContextLogger. rewrite Hnone. unfold bind.
  rewrite (NewAppLogger_unfold "stderr" "" s "stderr" eq_refl), Hlg.
  eexists _. eexists.
  split; [reflexivity|].
  rewrite (NewAppLogger_unfold "stderr" "" _ "stderr" eq_refl), Hlg.
  cbn [heap opened]. rewrite length_app. cbn [length].
  rewrite Nat.add_1_r. split; [reflexivity|].
  cbn [heap opened]. rewrite <- app_assoc. split; [done|].
  assert (is_Some ((heap s ++ [{| Logger := logger_Logger_New lg; mux := 0;
                                  pool := {| idle := []; New := Some lg |};
                                  requestID := "" |}]) !! length (heap s))) as Hn.
  { apply lookup_lt_is_Some. rewrite length_app. simpl. lia. }
  split; [done|].
  apply lookup_app_l. by apply lookup_lt_is_Some.
Qed.

End MoreContextFacts.

(** ** More on concurrent calls of [New] *)

Section MoreConcurrentFacts.
Context `{LoggerLib}.

Lemma modify_ext l f g s : (forall a, f a = g a) -> modify l f s = modify l g s.
Proof.
  intros Hfg. unfold modify. f_equal. apply list_alter_ext; [|done].
  intros a _. apply Hfg.
Qed.

Lemma with_readers_0 l s : with_readers l 0 s = s.
Proof.
  unfold with_readers. apply modify_id. intros [lg m p r]. simpl.
  by rewrite Nat.add_0_r.
Qed.

Lemma RLock_with_readers l k s :
  RLock l (with_readers l k s) = with_readers l (S k) s.
Proof.
  unfold RLock, with_readers. rewrite modify_modify. apply modify_ext.
  intros [lg m p r]. simpl. unfold set_mux. simpl. f_equal. lia.
Qed.

Lemma RUnlock_with_readers l k s :
  RUnlock l (with_readers l (S k) s) = with_readers l k s.
Proof.
  unfold RUnlock, with_readers. rewrite modify_modify. apply modify_ext.
  intros [lg m p r]. simpl. unfold set_mux. simpl. f_equal. lia.
Qed.

Lemma heap_with_readers l k s a :
  heap s !! l = Some a ->
  heap (with_readers l k s) !! l = Some (set_mux (mux a + k) a).
Proof. intros Hl. unfold with_readers. by rewrite heap_modify, decide_True, Hl. Qed.

(** A step of a goroutine on the shortcut, with [m] readers besides. *)
Lemma g_step_shortcut l id a s g k m :
  heap s !! l = Some a ->
  requestID a = id ->
  on_shortcut l id g k ->
  exists g' k',
    g_step l g (with_readers l (k + m) s) = (g', with_readers l (k' + m) s)
    /\ on_shortcut l id g' k'
    /\ shortcut_left (g_pc g') <= pred (shortcut_left (g_pc g)).
Proof.
  intros Hl Hid [Hg Hpc]. destruct g as [id' pick pc]. cbn [g_id g_pc] in *.
  subst id'. rewrite g_step_unfold.
  destruct Hpc as [[-> ->]|[[-> ->]|[[-> ->]|[-> ->]]]]; cbn [New_step fst snd].
  - eexists _, 1. rewrite RLock_with_readers. split; [reflexivity|].
    split; [split; [done|]; by right; left|simpl; lia].
  - rewrite (heap_with_readers l _ s a Hl). cbn [requestID set_mux].
    rewrite Hid, String.eqb_refl. cbn [fst snd].
    eexists _, 1. split; [reflexivity|].
    split; [split; [done|]; by right; right; left|simpl; lia].
  - eexists _, 0. rewrite RUnlock_with_readers. split; [reflexivity|].
    split; [split; [done|]; by right; right; right|simpl; lia].
  - eexists _, 0. split; [reflexivity|].
    split; [split; [done|]; by right; right; right|simpl; lia].
Qed.

Lemma run_schedule_shortcut l id a s sched g1 g2 k1 k2 :
  heap s !! l = Some a ->
  requestID a = id ->
  on_shortcut l id g1 k1 ->
  on_shortcut l id g2 k2 ->
  exists g1' g2' k1' k2',
    run_schedule l sched g1 g2 (with_readers l (k1 + k2) s)
      = (g1', g2', with_readers l (k1' + k2') s)
    /\ on_shortcut l id g1' k1'
    /\ on_shortcut l id g2' k2'
    /\ shortcut_left (g_pc g1') <= shortcut_left (g_pc g1) - turns true sched
    /\ shortcut_left (g_pc g2') <= shortcut_left (g_pc g2) - turns false sched.
Proof.
  intros Hl Hid. revert g1 g2 k1 k2.
  induction sched as [|[] sched IH]; intros g1 g2 k1 k2 H1 H2.
  - exists g1, g2, k1, k2. unfold turns. simpl.
    split; [done|]. split; [done|]. split; [done|]. lia.
  - cbn [run_schedule]. rewrite !turns_cons.
    destruct (g_step_shortcut l id a s g1 k1 k2 Hl Hid H1) as (g1' & k1' & -> & H1' & Hs).
    destruct (IH g1' g2 k1' k2 H1' H2) as (g1'' & g2' & k1'' & k2' & -> & ? & ? & ? & ?).
    rewrite decide_True, decide_False by done.
    exists g1'', g2', k1'', k2'.
    split; [done|]. split; [done|]. split; [done|]. lia.
  - cbn [run_schedule]. rewrite !turns_cons.
    destruct (g_step_shortcut l id a s g2 k2 k1 Hl Hid H2) as (g2' & k2' & Hstep & H2' & Hs).
    rewrite (Nat.add_comm k1 k2), Hstep, (Nat.add_comm k2' k1).
    destruct (IH g1 g2' k1 k2' H1 H2') as (g1' & g2'' & k1' & k2'' & -> & ? & ? & ? & ?).
    rewrite decide_False, decide_True by done.
    exists g1', g2'', k1', k2''.
    split; [done|]. split; [done|]. split; [done|]. lia.
Qed.

(** X10. Two concurrent calls of [New] with the id the logger has cached both
    take the shortcut: however their steps interleave, once each has had its
    three steps both have returned the logger itself, one object for the two
    callers, and the state is the one they started in (the pool was not
    touched, and no reader is left on the mutex). *)
Theorem concurrent_New_same_id_shares_logger (s : State) (l : loc)
    (a : AppLogger) (id : string) (pick1 pick2 : option nat)
    (sched : list bool) :
  heap s !! l = Some a ->
  requestID a = id ->
  3 <= turns true sched ->
  3 <= turns false sched ->
  exists g1 g2,
    run_schedule l sched (go_New id pick1) (go_New id pick2) s = (g1, g2, s)
    /\ g_pc g1 = Finished (Return (vAppLogger (Some l)))
    /\ g_pc g2 = Finished (Return (vAppLogger (Some l))).
Proof.
  intros Hl Hid Ht1 Ht2.
  assert (forall pick, on_shortcut l id (go_New id pick) 0) as Hstart.
  { intros pick. split; [done|]. by left. }
  destruct (run_schedule_shortcut l id a s sched _ _ 0 0 Hl Hid
              (Hstart pick1) (Hstart pick2))
    as (g1 & g2 & k1 & k2 & Hrun & [_ H1] & [_ H2] & Hs1 & Hs2).
  cbn [go_New g_pc shortcut_left] in Hs1, Hs2.
  assert (forall g k, shortcut_left (g_pc g) = 0 ->
            (g_pc g = AtRLock /\ k = 0
             \/ g_pc g = AtCompare /\ k = 1
             \/ g_pc g = AtFastRUnlock /\ k = 1
             \/ g_pc g = Finished (Return (vAppLogger (Some l))) /\ k = 0) ->
            g_pc g = Finished (Return (vAppLogger (Some l))) /\ k = 0) as Hend.
  { intros g k H0 [[Hg _]|[[Hg _]|[[Hg _]|Hg]]]; try (rewrite Hg in H0; done).
    done. }
  destruct (Hend g1 k1 ltac:(lia) H1) as [Hg1 ->].
  destruct (Hend g2 k2 ltac:(lia) H2) as [Hg2 ->].
  simpl in Hrun. rewrite !with_readers_0 in Hrun.
  by exists g1, g2.
Qed.

(** A step changes the reader count of the logger by what the goroutine
    takes or gives back. *)
Lemma g_step_mux l g s a :
  heap s !! l = Some a ->
  holds_lock (g_pc g) <= mux a ->
  mux <$> heap (g_step l g s).2 !! l
    = Some (mux a + holds_lock (g_pc (g_step l g s).1) - holds_lock (g_pc g)).
Proof.
  intros Hl Hm. destruct g as [id pick pc]. rewrite g_step_unfold.
  cbn [g_pc fst snd] in *.
  assert (mux <$> heap s !! l = Some (mux a)) as Hma by (by rewrite Hl).
  destruct pc as [| | | |lg|n|r|r]; cbn [New_step holds_lock] in *.
  - cbn [fst snd holds_lock]. rewrite heap_RLock, decide_True, Hl by done.
    simpl. f_equal. lia.
  - rewrite Hl. destruct (String.eqb _ _); cbn [fst snd holds_lock];
      rewrite Hl; simpl; f_equal; lia.
  - cbn [fst snd holds_lock]. rewrite heap_RUnlock, decide_True, Hl by done.
    simpl. f_equal. lia.
  - pose proof (Pool_Get_mux l pick s l ltac:(by eexists)) as Hg.
    destruct (Pool_Get l pick s) as [[lg|why|impl id'] s1];
      cbn [fst snd holds_lock] in *; rewrite Hg, Hma; f_equal; lia.
  - destruct lg as [|[n|]|[] impl];
      cbn [assert_AppLogger assert_Logger fst snd holds_lock];
      rewrite ?mux_modify by done; rewrite Hma; f_equal; lia.
  - cbn [fst snd holds_lock]. rewrite mux_modify by done. rewrite Hma.
    f_equal. lia.
  - cbn [fst snd holds_lock]. rewrite heap_RUnlock, decide_True, Hl by done.
    simpl. f_equal. lia.
  - cbn [fst snd holds_lock]. rewrite Hma. f_equal. lia.
Qed.

Lemma run_schedule_mux l sched g1 g2 s a m0 :
  heap s !! l = Some a ->
  mux a = m0 + holds_lock (g_pc g1) + holds_lock (g_pc g2) ->
  mux <$> heap (run_schedule l sched g1 g2 s).2 !! l
    = Some (m0 + holds_lock (g_pc (run_schedule l sched g1 g2 s).1.1)
               + holds_lock (g_pc (run_schedule l sched g1 g2 s).1.2)).
Proof.
  revert g1 g2 s a. induction sched as [|[] sched IH]; intros g1 g2 s a Hl Hm.
  - cbn [run_schedule fst snd]. rewrite Hl. simpl. by rewrite Hm.
  - cbn [run_schedule].
    pose proof (g_step_mux l g1 s a Hl ltac:(lia)) as Hstep.
    destruct (g_step l g1 s) as [g1' s']. cbn [fst snd] in Hstep.
    destruct (heap s' !! l) as [a'|] eqn:Hl'; [|done].
    injection Hstep as Hstep. apply (IH g1' g2 s' a' Hl'). lia.
  - cbn [run_schedule].
    pose proof (g_step_mux l g2 s a Hl ltac:(lia)) as Hstep.
    destruct (g_step l g2 s) as [g2' s']. cbn [fst snd] in Hstep.
    destruct (heap s' !! l) as [a'|] eqn:Hl'; [|done].
    injection Hstep as Hstep. apply (IH g1 g2' s' a' Hl'). lia.
Qed.

(** X11. Two concurrent calls of [New] on a logger, with any ids and a pool
    holding anything: at every point of every interleaving the mutex of the
    logger counts, besides the readers it had, exactly the goroutines that
    are between their [RLock] and their [RUnlock]; so once both calls have
    ended, by return or by panic, the mutex is as it was. *)
Theorem concurrent_New_balances_lock (s : State) (l : loc) (a : AppLogger)
    (r1 r2 : string) (pick1 pick2 : option nat) (sched : list bool) :
  heap s !! l = Some a ->
  mux <$> heap (run_schedule l sched (go_New r1 pick1) (go_New r2 pick2) s).2 !! l
    = Some (mux a
            + holds_lock (g_pc (run_schedule l sched (go_New r1 pick1)
                                  (go_New r2 pick2) s).1.1)
            + holds_lock (g_pc (run_schedule l sched (go_New r1 pick1)
                                  (go_New r2 pick2) s).1.2))
  /\ (6 <= turns true sched -> 6 <= turns false sched ->
      mux <$> heap (run_schedule l sched (go_New r1 pick1)
                      (go_New r2 pick2) s).2 !! l = Some (mux a)).
Proof.
  intros Hl.
  pose proof (run_schedule_mux l sched (go_New r1 pick1) (go_New r2 pick2) s a
                (mux a) Hl ltac:(simpl; lia)) as Hm.
  split; [done|]. intros Ht1 Ht2. rewrite Hm.
  destruct (run_schedule_progress l sched (go_New r1 pick1) (go_New r2 pick2) s)
    as (Hp1 & Hp2 & _).
  cbn [go_New g_pc steps_left] in Hp1, Hp2.
  destruct (steps_left_0 (g_pc (run_schedule l sched (go_New r1 pick1)
              (go_New r2 pick2) s).1.1)) as [x1 Hx1]; [lia|].
  destruct (steps_left_0 (g_pc (run_schedule l sched (go_New r1 pick1)
              (go_New r2 pick2) s).1.2)) as [x2 Hx2]; [lia|].
  rewrite Hx1, Hx2. simpl. f_equal. lia.
Qed.

End MoreConcurrentFacts.

(** ** More on the component generator *)

Lemma substring_0_length (s : string) : substring 0 (String.length s) s = s.
Proof. induction s as [|c s IH]; simpl; [done|]. by rewrite IH. Qed.

Lemma substring_0_append (p t : string) :
  substring 0 (String.length p) (p +:+ t) = p.
Proof.
  induction p as [|c p IH]; simpl.
  - by destruct t.
  - by rewrite IH.
Qed.

Lemma substring_skip_append (p t : string) (n m : nat) :
  substring (String.length p + n) m (p +:+ t) = substring n m t.
Proof. induction p as [|c p IH]; simpl; done. Qed.

Lemma string_length_append (p t : string) :
  String.length (p +:+ t) = String.length p + String.length t.
Proof. induction p as [|c p IH]; simpl; [done|]. by rewrite IH. Qed.

(** Whether a string ends with [suffix] is decided by its last bytes. *)
Lemma strings_HasSuffix_append (p t suffix : string) :
  String.length suffix <= String.length t ->
  strings_HasSuffix (p +:+ t) suffix = strings_HasSuffix t suffix.
Proof.
  intros Hle. unfold strings_HasSuffix. rewrite string_length_append.
  replace (String.length p + String.length t - String.length suffix)
    with (String.length p + (String.length t - String.length suffix)) by lia.
  rewrite substring_skip_append. f_equal.
  destruct (Nat.leb_spec (String.length suffix) (String.length t)); [|lia].
  apply Nat.leb_le. lia.
Qed.

Lemma strings_TrimSuffix_append (p suffix : string) :
  strings_TrimSuffix (p +:+ suffix) suffix = p.
Proof.
  unfold strings_TrimSuffix.
  rewrite (strings_HasSuffix_append p suffix suffix) by done.
  unfold strings_HasSuffix at 1. rewrite Nat.leb_refl, Nat.sub_diag.
  rewrite substring_0_length, String.eqb_refl. simpl.
  rewrite string_length_append.
  replace (String.length p + String.length suffix - String.length suffix)
    with (String.length p) by lia.
  apply substring_0_append.
Qed.

Lemma string_append_assoc (p t u : string) : (p +:+ t) +:+ u = p +:+ (t +:+ u).
Proof.
  induction p as [|c p IH]; [done|].
  change (String c ((p +:+ t) +:+ u) = String c (p +:+ (t +:+ u))).
  by rewrite IH.
Qed.

Section MoreComponentFacts.
Import commands.
Context `{Platform}.

Lemma Valid_comDirs (ct : ComponentType) :
  ComponentType_Valid ct = true -> is_Some (comDirs ct).
Proof.
  rewrite Valid_bounds. unfold _comType, comType_. intros Hb.
  assert (ct = 1 \/ ct = 2 \/ ct = 3)%Z as Hc by lia.
  destruct Hc as [Hc|[Hc|Hc]]; subst ct; by eexists.
Qed.

(** X12. The three tables of the component types agree: a type passes
    [Valid] exactly when [comDirs] has directories for it, and exactly when
    [String] names it. So for every type [newComponent] lets through, [Root]
    resolves a directory and the templates looked up have a component name
    in them. *)
Theorem Valid_iff_comDirs_iff_String (ct : ComponentType) :
  (ComponentType_Valid ct = true <-> is_Some (comDirs ct))
  /\ (ComponentType_Valid ct = true <-> ComponentType_String ct <> "").
Proof.
  rewrite Valid_bounds.
  unfold comDirs, ComponentType_String, _comType, comType_, ComTypeController,
    ComTypeMiddleware, ComTypeModel.
  destruct (Z.eqb_spec ct 1); [split; (split; [by eauto|lia])|].
  destruct (Z.eqb_spec ct 2); [split; (split; [by eauto|lia])|].
  destruct (Z.eqb_spec ct 3); [split; (split; [by eauto|lia])|].
  split; (split; [lia|]).
  - by intros [? [=]].
  - done.
Qed.

(** X13. [Root] gives the same directory from the project directory
    [p/gogo], with or without a slash at its end, as from its parent [p]
    (a [p] that does not itself end in a slash or in [/gogo]): the generator
    can be run from either place. *)
Theorem Root_from_project_or_parent (ct : ComponentType) (p : string) :
  ComponentType_Valid ct = true ->
  strings_HasSuffix p "/" = false ->
  strings_HasSuffix p "/gogo" = false ->
  ComponentType_Root ct (p +:+ "/gogo") = ComponentType_Root ct p
  /\ ComponentType_Root ct (p +:+ "/gogo/") = ComponentType_Root ct p.
Proof.
  intros Hv Hs Hg.
  destruct (Valid_comDirs ct Hv) as [dirs Hd].
  unfold ComponentType_Root. rewrite Hd.
  assert (strings_TrimSuffix p "/" = p) as ->
    by (unfold strings_TrimSuffix; by rewrite Hs).
  assert (strings_TrimSuffix p "/gogo" = p) as ->
    by (unfold strings_TrimSuffix; by rewrite Hg).
  assert (strings_TrimSuffix (p +:+ "/gogo") "/" = p +:+ "/gogo") as ->.
  { unfold strings_TrimSuffix.
    by rewrite (strings_HasSuffix_append p "/gogo" "/") by (simpl; lia). }
  change "/gogo/" with ("/gogo" +:+ "/"). rewrite <- string_append_assoc.
  by rewrite !strings_TrimSuffix_append.
Qed.

Lemma generate_stderr comRoot file tmpl comArgs w :
  match (generate comRoot file tmpl comArgs w).1 with
  | Some (ErrExternal e) =>
      exists line, stderr (generate comRoot file tmpl comArgs w).2
                   = stderr w ++ [line]
  | Some _ => False
  | None => stderr (generate comRoot file tmpl comArgs w).2 = stderr w
  end.
Proof.
  unfold generate. destruct (os_OpenFile _ _) as [fs1|err]; simpl.
  - destruct (template_Execute _ _ _ _) as [fs2 [err|]]; simpl; eauto.
  - eauto.
Qed.

(** X14. What [newComponent] logs: a call that returns an error of the
    operating system or of a template has added one line to the standard
    error, and a call that returns nil or one of the two sentinel errors has
    added none. *)
Theorem newComponent_logs_external_errors (com : ComponentType)
    (name : string) (args : list string) (w : World) :
  match (newComponent com name args w).1 with
  | Some (ErrExternal e) =>
      exists line, stderr (newComponent com name args w).2 = stderr w ++ [line]
  | _ => stderr (newComponent com name args w).2 = stderr w
  end.
Proof.
  unfold newComponent. destruct (ComponentType_Valid com); simpl; [|done].
  destruct (os_Getwd (fs w)) as [root|err]; simpl; [|by eauto].
  destruct (strings_Contains _ _); simpl; [|done].
  pose proof (generate_stderr (ComponentType_Root com root)
                (Component_toFilename name)
                ("template_" +:+ ComponentType_String com)
                {| Name := Component_toCamelCase name; Args := args |} w) as H1.
  destruct (generate _ _ _ _ w) as [[e1|] w1]; cbn [fst snd] in *.
  - by destruct e1.
  - pose proof (generate_stderr (ComponentType_Root com root)
                  (Component_toFilename (name +:+ "_test"))
                  ("template_" +:+ ComponentType_String com +:+ "_test")
                  {| Name := Component_toCamelCase name; Args := args |} w1) as H2.
    destruct (generate _ _ _ _ w1) as [[e2|] w2]; cbn [fst snd] in *.
    + destruct e2; try done. destruct H2 as [line H2]. exists line.
      by rewrite H2, H1.
    + by rewrite H2, H1.
Qed.

Lemma newComponent_known_type com name args w :
  ComponentType_Valid com = true ->
  (newComponent com name args w).1 <> Some ErrComponentType.
Proof.
  intros Hv.
  destruct (newComponent_cases com name args w)
    as [[Hv' _]|[(_ & err & _ & ->)|[(_ & root & _ & _ & ->)
       |(_ & root & _ & _ & Hext)]]]; try done.
  - congruence.
  - intros He. by destruct (Hext _ He).
Qed.

(** X15. None of the four command actions ([Action], [NewController],
    [NewMiddleware], [NewModel]) returns [ErrComponentType]: each asks
    [newComponent] for a type it accepts. [Action] in particular returns the
    error of the controller when that step fails, then not starting on the
    model, and the result of the model step otherwise. *)
Theorem actions_ask_for_known_types (ctx : cli_Context) (w : World) :
  (Component_Action ctx w).1 <> Some ErrComponentType
  /\ (Component_NewController ctx w).1 <> Some ErrComponentType
  /\ (Component_NewMiddleware ctx w).1 <> Some ErrComponentType
  /\ (Component_NewModel ctx w).1 <> Some ErrComponentType
  /\ (forall e,
        (newComponent ComTypeController (path_Clean (Args_First ctx))
           (ctx_StringSlice ctx "controller-actions") w).1 = Some e ->
        Component_Action ctx w
          = newComponent ComTypeController (path_Clean (Args_First ctx))
              (ctx_StringSlice ctx "controller-actions") w).
Proof.
  split; [|split; [|split; [|split]]].
  - unfold Component_Action.
    pose proof (newComponent_known_type ComTypeController
                  (path_Clean (Args_First ctx))
                  (ctx_StringSlice ctx "controller-actions") w eq_refl) as H1.
    destruct (newComponent ComTypeController _ _ w) as [[e1|] w1];
      cbn [fst snd] in *; [done|].
    pose proof (newComponent_known_type ComTypeModel
                  (path_Clean (Args_First ctx)) [] w1 eq_refl) as H2.
    by destruct (newComponent ComTypeModel _ _ w1) as [[e2|] w2].
  - by apply newComponent_known_type.
  - by apply newComponent_known_type.
  - by apply newComponent_known_type.
  - intros e He. unfold Component_Action.
    destruct (newComponent ComTypeController _ _ w) as [[e1|] w1]; [done|].
    done.
Qed.

End MoreComponentFacts.

(** ** The further facts at work *)

Lemma NewAppLogger_resolves_sink_witness :
  "log" <> ""
  /\ opened (NewAppLogger (H:=plain_logger) "log" "app" empty_State).2
     = ["log/app.log"].
Proof.
  assert ("log" <> "") as Hne by discriminate.
  split; [exact Hne|].
  exact (proj1 (NewAppLogger_resolves_sink (H:=plain_logger) "log" "app"
                  empty_State Hne)).
Defined.

Lemma New_empty_id_on_new_logger_witness :
  NewAppLogger (H:=plain_logger) "nil" "" empty_State = (Return (Some 0), started)
  /\ AppLogger_New (Some 0) "" (Some 0) started
     = (Return (vAppLogger (Some 0)), started)
  /\ AppLogger_RequestID (Some 0) started = (Return "", started).
Proof.
  split; [reflexivity|].
  exact (New_empty_id_on_new_logger (H:=plain_logger) "nil" "" empty_State
           started 0 (Some 0) eq_refl).
Defined.

Lemma New_after_Reuse_returns_handle_witness :
  exists a,
    heap acquired !! 0 = Some a
    /\ requestID a <> "b"
    /\ is_Some (heap acquired !! 1)
    /\ exists s' a',
         AppLogger_New (Some 0) "b" (Some 0)
           (AppLogger_Reuse (Some 0) (vAppLogger (Some 1)) acquired).2
           = (Return (vAppLogger (Some 1)), s')
         /\ AppLogger_RequestID (Some 1) s' = (Return "b", s')
         /\ heap s' !! 0 = Some a'
         /\ idle (pool a') = idle (pool a)
         /\ (forall x, x <> 1 -> heap s' !! x = heap acquired !! x).
Proof.
  eexists. split; [reflexivity|].
  assert ("" <> "b") as Hne by discriminate.
  split; [exact Hne|].
  assert (is_Some (heap acquired !! 1)) as Hn by (eexists; reflexivity).
  split; [exact Hn|].
  exact (New_after_Reuse_returns_handle (H:=plain_logger) acquired 0 1 _ "b"
           eq_refl Hne Hn).
Defined.

Lemma New_without_constructor_panics_witness :
  exists a,
    heap served !! 1 = Some a
    /\ requestID a <> "other"
    /\ New (pool a) = None
    /\ AppLogger_New (Some 1) "other" None served
       = (Panic InterfaceConversion, served).
Proof.
  eexists. split; [reflexivity|].
  assert ("di-tseuqer-x" <> "other") as Hne by discriminate.
  split; [exact Hne|]. split; [reflexivity|].
  exact (New_without_constructor_panics (H:=plain_logger) served 1 _ "other"
           None eq_refl Hne eq_refl eq_refl).
Defined.

Lemma New_drops_other_values_witness :
  exists a,
    heap offered !! 0 = Some a
    /\ requestID a <> "a"
    /\ idle (pool a) !! 0 = Some (vOther true 7)
    /\ (AppLogger_New (Some 0) "a" (Some 0) offered).1 = Delegated 7 "a".
Proof.
  eexists. split; [reflexivity|].
  assert ("" <> "a") as Hne by discriminate.
  split; [exact Hne|]. split; [reflexivity|].
  exact (proj1 (New_drops_other_values (H:=plain_logger) offered 0 _ "a" 0 true 7
                  eq_refl Hne eq_refl)).
Defined.

Lemma New_releases_lock_witness :
  exists a,
    heap served !! 0 = Some a
    /\ mux <$> heap (AppLogger_New (Some 0) "a" (Some 0) served).2 !! 0
       = Some (mux a).
Proof.
  eexists. split; [reflexivity|].
  exact (New_releases_lock (H:=plain_logger) served 0 _ "a" (Some 0) eq_refl).
Defined.

Lemma pool_keeps_idle_handles_apart_witness :
  NewAppLogger (H:=plain_logger) "nil" "" empty_State = (Return (Some 0), started)
  /\ reuses_outstanding 0
       [CallNew "a" None; CallReuse (vAppLogger (Some 1)); CallNew "b" (Some 0)]
       started
  /\ pool_of_idle_handles
       (run_calls (Some 0)
          [CallNew "a" None; CallReuse (vAppLogger (Some 1)); CallNew "b" (Some 0)]
          started) 0.
Proof.
  assert (reuses_outstanding 0
            [CallNew "a" None; CallReuse (vAppLogger (Some 1));
             CallNew "b" (Some 0)] started) as Hr.
  { split; [exact I|]. split; [|split; [exact I|exact I]].
    exists 1. split; [reflexivity|]. split; [eexists; reflexivity|].
    split; [discriminate|]. intros a [= <-]. apply not_elem_of_nil. }
  split; [reflexivity|]. split; [exact Hr|].
  exact (pool_keeps_idle_handles_apart (H:=plain_logger) "nil" "" empty_State
           started 0 _ eq_refl Hr).
Defined.

Lemma NewContextLogger_default_is_new_each_time_witness :
  logger_New (LoggerLib:=plain_logger) "stderr" = inl ("stderr", [])
  /\ assert_Logger (Context_Value [(1, vOther false 5)] 0) = None
  /\ exists s1 s2,
       NewContextLogger 0 [(1, vOther false 5)] served
         = (Return (vAppLogger (Some 2)), s1)
       /\ NewContextLogger 0 [(1, vOther false 5)] s1
         = (Return (vAppLogger (Some 3)), s2)
       /\ opened s2 = opened served ++ ["stderr"; "stderr"]
       /\ is_Some (heap s1 !! 2)
       /\ heap s2 !! 2 = heap s1 !! 2.
Proof.
  split; [reflexivity|]. split; [reflexivity|].
  exact (NewContextLogger_default_is_new_each_time (H:=plain_logger) 0
           [(1, vOther false 5)] served ("stderr", []) eq_refl eq_refl).
Defined.

Lemma concurrent_New_same_id_shares_logger_witness :
  exists a,
    heap served !! 0 = Some a
    /\ requestID a = ""
    /\ 3 <= turns true alternating
    /\ 3 <= turns false alternating
    /\ exists g1 g2,
         run_schedule 0 alternating (go_New "" (Some 0)) (go_New "" None) served
           = (g1, g2, served)
         /\ g_pc g1 = Finished (Return (vAppLogger (Some 0)))
         /\ g_pc g2 = Finished (Return (vAppLogger (Some 0))).
Proof.
  eexists. split; [reflexivity|]. split; [reflexivity|].
  assert (3 <= turns true alternating) as H1 by (vm_compute; lia).
  assert (3 <= turns false alternating) as H2 by (vm_compute; lia).
  split; [exact H1|]. split; [exact H2|].
  exact (concurrent_New_same_id_shares_logger (H:=plain_logger) served 0 _ ""
           (Some 0) None alternating eq_refl eq_refl H1 H2).
Defined.

Lemma concurrent_New_balances_lock_witness :
  exists a,
    heap served !! 0 = Some a
    /\ mux <$> heap (run_schedule 0 one_then_other (go_New "a" (Some 0))
                       (go_New "" None) served).2 !! 0 = Some (mux a).
Proof.
  eexists. split; [reflexivity|].
  assert (6 <= turns true one_then_other) as H1 by (vm_compute; lia).
  assert (6 <= turns false one_then_other) as H2 by (vm_compute; lia).
  exact (proj2 (concurrent_New_balances_lock (H:=plain_logger) served 0 _ "a" ""
                  (Some 0) None one_then_other eq_refl) H1 H2).
Defined.

Lemma Root_from_project_or_parent_witness :
  commands.ComponentType_Valid commands.ComTypeModel = true
  /\ strings_HasSuffix "/home/me" "/" = false
  /\ strings_HasSuffix "/home/me" "/gogo" = false
  /\ commands.ComponentType_Root commands.ComTypeModel "/home/me/gogo"
     = "/home/me/gogo/app/models"
  /\ commands.ComponentType_Root commands.ComTypeModel "/home/me/gogo/"
     = commands.ComponentType_Root commands.ComTypeModel "/home/me".
Proof.
  split; [reflexivity|]. split; [reflexivity|]. split; [reflexivity|].
  split; [reflexivity|].
  exact (proj2 (Root_from_project_or_parent commands.ComTypeModel "/home/me"
                  eq_refl eq_refl eq_refl)).
Defined.
